(** * Voting power table of the BTC staking keeper

    A shallow embedding of the voting power table of package [keeper]:
    the per-block tally [RecordVotingPowerTable], the height-partitioned
    voting power store behind [SetVotingPower], [GetVotingPower],
    [HasVotingPowerTable] and [GetVotingPowerTable], and the activation
    queries [GetBTCStakingActivatedHeight] and [IsBTCStakingActivated].

    Integers of the source are [Z] with their wrap-around written out,
    byte slices are [list byte], the module's ordered key-value store is an
    association list kept in ascending key order, and a Go panic is the
    [Panic] outcome.  A list does not tell a nil slice from an empty one:
    the keys handed to the store are taken to be non-nil, so the nil-key
    panic of a prefix store is outside the model, while the empty-key panic
    of a write is in it ([AssertValidKey]). *)

From stdpp Require Import gmap strings.
From Stdlib Require Import ZArith List Lia Bool.
From Stdlib Require Import Strings.Byte Strings.Ascii.
Import ListNotations.

Local Open Scope Z_scope.

(** ** Outcomes: a call returns, or panics *)

Inductive outcome (A : Type) : Type :=
| Ok (a : A)
| Panic.
Arguments Ok {A} a.
Arguments Panic {A}.

#[global] Instance outcome_ret : MRet outcome := fun _ a => Ok a.
#[global] Instance outcome_bind : MBind outcome := fun _ _ f m =>
  match m with
  | Ok a => f a
  | Panic => Panic
  end.

(** ** Bytes and fixed-width integers *)

Abbreviation bytes := (list byte).

Definition uint64 (z : Z) : Z := z mod 2 ^ 64.
Definition uint32 (z : Z) : Z := z mod 2 ^ 32.

(** [byte(v)]: conversion of an integer to a byte keeps the low 8 bits. *)
Definition byte_of_Z (z : Z) : byte :=
  match Byte.of_N (Z.to_N (z mod 256)) with
  | Some b => b
  | None => x00
  end.

(** [uint64(b)] for a byte [b]. *)
Definition Z_of_byte (b : byte) : Z := Z.of_N (Byte.to_N b).

(** [binary.BigEndian.PutUint64] on a fresh 8-byte slice. *)
Definition PutUint64 (v : Z) : bytes :=
  [ byte_of_Z (Z.shiftr v 56); byte_of_Z (Z.shiftr v 48);
    byte_of_Z (Z.shiftr v 40); byte_of_Z (Z.shiftr v 32);
    byte_of_Z (Z.shiftr v 24); byte_of_Z (Z.shiftr v 16);
    byte_of_Z (Z.shiftr v 8);  byte_of_Z v ].

(** [binary.BigEndian.Uint64]: the bounds check [_ = b[7]] panics on a slice
    shorter than 8 bytes; bytes after the eighth are not read. *)
Definition Uint64 (b : bytes) : outcome Z :=
  match b with
  | b0 :: b1 :: b2 :: b3 :: b4 :: b5 :: b6 :: b7 :: _ =>
      Ok (Z.lor (Z_of_byte b7)
         (Z.lor (Z.shiftl (Z_of_byte b6) 8)
         (Z.lor (Z.shiftl (Z_of_byte b5) 16)
         (Z.lor (Z.shiftl (Z_of_byte b4) 24)
         (Z.lor (Z.shiftl (Z_of_byte b3) 32)
         (Z.lor (Z.shiftl (Z_of_byte b2) 40)
         (Z.lor (Z.shiftl (Z_of_byte b1) 48)
                (Z.shiftl (Z_of_byte b0) 56))))))))
  | _ => Panic
  end.

(** [sdk.Uint64ToBigEndian]. *)
Definition Uint64ToBigEndian (i : Z) : bytes := PutUint64 (uint64 i).

(** [sdk.BigEndianToUint64]: zero on an empty slice. *)
Definition BigEndianToUint64 (bz : bytes) : outcome Z :=
  match bz with
  | [] => Ok 0
  | _ => Uint64 bz
  end.

(** The number a byte slice denotes when read big-endian, most significant
    byte first; [Uint64] computes it on the first eight bytes
    ([Uint64_be_value]). *)
Definition be_value (l : bytes) : Z :=
  fold_left (fun acc b => acc * 256 + Z_of_byte b) l 0.

(** [bytes.Compare]: lexicographic order on unsigned bytes, a proper prefix
    being smaller. *)
Fixpoint bytes_compare (a b : bytes) : comparison :=
  match a, b with
  | [], [] => Eq
  | [], _ :: _ => Lt
  | _ :: _, [] => Gt
  | x :: a', y :: b' =>
      match Z.compare (Z_of_byte x) (Z_of_byte y) with
      | Eq => bytes_compare a' b'
      | c => c
      end
  end.

Definition bytes_eqb (a b : bytes) : bool :=
  match bytes_compare a b with Eq => true | _ => false end.

Definition bytes_ltb (a b : bytes) : bool :=
  match bytes_compare a b with Lt => true | _ => false end.

(** [bytes.HasPrefix]. *)
Fixpoint has_prefix (p k : bytes) : bool :=
  match p, k with
  | [], _ => true
  | _ :: _, [] => false
  | x :: p', y :: k' => Byte.eqb x y && has_prefix p' k'
  end.

(** ** The ordered key-value store

    The module's store maps byte keys to byte values and iterates in
    ascending key order.  It is kept as an association list sorted by
    [bytes_compare]; [store_insert] is the write of one key. *)

Abbreviation KVStore := (list (bytes * bytes)).

Fixpoint store_get (s : KVStore) (k : bytes) : option bytes :=
  match s with
  | [] => None
  | (k', v) :: s' => if bytes_eqb k' k then Some v else store_get s' k
  end.

Fixpoint store_insert (s : KVStore) (k v : bytes) : KVStore :=
  match s with
  | [] => [(k, v)]
  | (k', v') :: s' =>
      match bytes_compare k k' with
      | Lt => (k, v) :: s
      | Eq => (k, v) :: s'
      | Gt => (k', v') :: store_insert s' k v
      end
  end.

(** Ascending, duplicate-free keys: the shape every store built by writes
    has. *)
Fixpoint store_sorted (s : KVStore) : bool :=
  match s with
  | [] => true
  | (k, _) :: s' =>
      match s' with
      | [] => true
      | (k', _) :: _ => bytes_ltb k k' && store_sorted s'
      end
  end.

(** [types.AssertValidKey] of the store library: a key is neither empty nor
    longer than [MaxKeyLength], which is [(1 << 17) - 1]. *)
Definition MaxKeyLength : Z := 2 ^ 17 - 1.

Definition AssertValidKey (key : bytes) : bool :=
  negb (Z.of_nat (length key) =? 0) && (Z.of_nat (length key) <=? MaxKeyLength).

Definition store_Set (s : KVStore) (key value : bytes) : outcome KVStore :=
  if AssertValidKey key then Ok (store_insert s key value) else Panic.

(** A [prefix.Store] over the root store is its accumulated prefix:
    [prefix.NewStore (prefix.NewStore root p) q] addresses [p ++ q ++ key]. *)
Definition prefix_Get (pfx : bytes) (s : KVStore) (key : bytes) : option bytes :=
  store_get s (pfx ++ key).

Definition prefix_Set (pfx : bytes) (s : KVStore) (key value : bytes)
  : outcome KVStore :=
  if AssertValidKey key then store_Set s (pfx ++ key) value else Panic.

(** [Iterator(nil, nil)] of a prefix store: every entry of the root whose
    key starts with the prefix, in ascending order, the prefix stripped. *)
Definition prefix_Iterator (pfx : bytes) (s : KVStore) : list (bytes * bytes) :=
  map (fun e => (skipn (length pfx) (fst e), snd e))
      (List.filter (fun e => has_prefix pfx (fst e)) s).

(** ** Collaborators of the keeper *)

Record Params := {
  CovenantQuorum : Z;               (* uint32 *)
  MaxActiveBtcValidators : Z        (* uint32 *)
}.

(** Modelled from the spec: a validator of the registry "carries a slashed
    flag"; the type and its [IsSlashed] live outside this file. *)
Record BTCValidator := { slashed : bool }.

Definition IsSlashed (v : BTCValidator) : bool := slashed v.

(** Modelled from the spec: the delegations of one delegator under one
    validator, seen through their only method used here, the
    "VotingPowerFunction(tipHeight, window, quorum)". *)
Record BTCDelegatorDelegations := {
  DelsVotingPower : Z -> Z -> Z -> Z
}.

Record BTCValidatorWithMeta := {
  BtcPk : bytes;
  VotingPower : Z
}.

(** What a call reads besides the voting power store: the block height of
    the context, the parameters, the fallible BTC tip lookup, the validator
    registry in key order and the delegations grouped by validator. *)
Record Env := {
  BlockHeight : Z;                                  (* int64 *)
  GetParams : Params;
  CheckpointFinalizationTimeout : Z;                (* uint64 *)
  GetCurrentBTCHeight : option Z;                   (* None: the lookup failed *)
  btcValidatorStore : list (bytes * BTCValidator);
  btcDelegatorStore : bytes -> list bytes;
  getBTCDelegatorDelegations : bytes -> bytes -> option BTCDelegatorDelegations
}.

Fixpoint GetBTCValidator_in (reg : list (bytes * BTCValidator)) (pk : bytes)
  : option BTCValidator :=
  match reg with
  | [] => None
  | (k, v) :: reg' => if bytes_eqb k pk then Some v else GetBTCValidator_in reg' pk
  end.

(** Modelled from the spec: "single-key existence/lookup" of the
    ValidatorRegistry; [GetBTCValidator] and [HasBTCValidator] are defined in
    another file of the keeper. *)
Definition GetBTCValidator (env : Env) (valBTCPK : bytes) : option BTCValidator :=
  GetBTCValidator_in (btcValidatorStore env) valBTCPK.

Definition HasBTCValidator (env : Env) (valBTCPK : bytes) : bool :=
  match GetBTCValidator env valBTCPK with Some _ => true | None => false end.

(** [hex.EncodeToString]: two lower-case digits per byte. *)
Definition hextable (n : Z) : ascii :=
  match n with
  | 0 => "0" | 1 => "1" | 2 => "2" | 3 => "3" | 4 => "4" | 5 => "5"
  | 6 => "6" | 7 => "7" | 8 => "8" | 9 => "9" | 10 => "a" | 11 => "b"
  | 12 => "c" | 13 => "d" | 14 => "e" | _ => "f"
  end%char.

Fixpoint EncodeToString (src : bytes) : string :=
  match src with
  | [] => EmptyString
  | v :: src' =>
      String (hextable (Z.shiftr (Z_of_byte v) 4))
        (String (hextable (Z.land (Z_of_byte v) 15)) (EncodeToString src'))
  end.

(** Modelled from the spec: the TopNSelector, "deterministic ranking and
    truncation of candidate validators" with "ties broken ... [in] ascending
    ValidatorKey order"; [FilterTopNBTCValidators] is defined in the types
    package.  Candidates are ranked by descending power, equal powers by
    ascending key, and the first [n] are kept. *)
Definition ranks_before (a b : BTCValidatorWithMeta) : bool :=
  (VotingPower b <? VotingPower a)
  || ((VotingPower a =? VotingPower b) && negb (bytes_ltb (BtcPk b) (BtcPk a))).

Fixpoint rank_insert (a : BTCValidatorWithMeta) (l : list BTCValidatorWithMeta)
  : list BTCValidatorWithMeta :=
  match l with
  | [] => [a]
  | b :: l' => if ranks_before a b then a :: l else b :: rank_insert a l'
  end.

Definition rank (l : list BTCValidatorWithMeta) : list BTCValidatorWithMeta :=
  fold_right rank_insert [] l.

Definition FilterTopNBTCValidators (validators : list BTCValidatorWithMeta) (n : Z)
  : list BTCValidatorWithMeta :=
  firstn (Z.to_nat (uint32 n)) (rank validators).

Inductive error := ErrBTCStakingNotActivated.

(** ** The keeper *)

Section Keeper.

(** [types.VotingPowerKey], the store prefix of the voting power table. *)
Variable VotingPowerKey : bytes.

(** Length of a BIP340 public key and the curve check of
    [schnorr.ParsePubKey]; both belong to the [bbn] types package. *)
Variable BIP340PubKeyLen : nat.
Variable ParsePubKey : bytes -> bool.

(** Modelled from the spec: a ValidatorKey is "a fixed-length byte
    identifier"; [bbn.NewBIP340PubKey] accepts a slice of that length that
    parses as a public key, and keeps its bytes. *)
Definition NewBIP340PubKey (data : bytes) : option bytes :=
  if Nat.eqb (length data) BIP340PubKeyLen && ParsePubKey data
  then Some data else None.

Definition MustMarshal (pk : bytes) : bytes := pk.
Definition MarshalHex (pk : bytes) : string := EncodeToString pk.

(** [votingPowerStore]: prefix [VotingPowerKey || Babylon block height]. *)
Definition votingPowerStore (height : Z) : bytes :=
  VotingPowerKey ++ Uint64ToBigEndian height.

Definition SetVotingPower (kv : KVStore) (valBTCPK : bytes) (height power : Z)
  : outcome KVStore :=
  prefix_Set (votingPowerStore height) kv valBTCPK (Uint64ToBigEndian power).

Definition GetVotingPower (env : Env) (kv : KVStore) (valBTCPK : bytes)
  (height : Z) : outcome Z :=
  if negb (HasBTCValidator env valBTCPK) then Ok 0
  else
    let powerBytes :=
      match prefix_Get (votingPowerStore height) kv valBTCPK with
      | Some v => v
      | None => []
      end in
    if Nat.eqb (length powerBytes) 0 then Ok 0
    else BigEndianToUint64 powerBytes.

Definition HasVotingPowerTable (kv : KVStore) (height : Z) : bool :=
  match prefix_Iterator (votingPowerStore height) kv with
  | [] => false
  | _ :: _ => true
  end.

(** The loop of [GetVotingPowerTable] over the entries of one height. *)
Fixpoint collectValSet (iter : list (bytes * bytes)) (valSet : gmap string Z)
  : outcome (gmap string Z) :=
  match iter with
  | [] => Ok valSet
  | (key, value) :: iter' =>
      match NewBIP340PubKey key with
      | None => Panic
      | Some valBTCPK =>
          power ← BigEndianToUint64 value;
          collectValSet iter' (<[MarshalHex valBTCPK := power]> valSet)
      end
  end.

(** [None] is the nil map. *)
Definition GetVotingPowerTable (kv : KVStore) (height : Z)
  : outcome (option (gmap string Z)) :=
  let iter := prefix_Iterator (votingPowerStore height) kv in
  match iter with
  | [] => Ok None
  | _ :: _ => valSet ← collectValSet iter ∅; Ok (Some valSet)
  end.

Definition GetBTCStakingActivatedHeight (kv : KVStore)
  : outcome (Z * option error) :=
  match prefix_Iterator VotingPowerKey kv with
  | (key, _) :: _ => h ← BigEndianToUint64 key; Ok (h, None)
  | [] => Ok (0, Some ErrBTCStakingNotActivated)
  end.

Definition IsBTCStakingActivated (kv : KVStore) : bool :=
  match prefix_Iterator VotingPowerKey kv with
  | [] => false
  | _ :: _ => true
  end.

(** The inner loop of the tally: the delegations under one validator. *)
Fixpoint sumVotingPower (env : Env) (valBTCPK : bytes)
  (btcTipHeight wValue covenantQuorum : Z)
  (btcDelIter : list bytes) (valPower : Z) : outcome Z :=
  match btcDelIter with
  | [] => Ok valPower
  | key :: btcDelIter' =>
      match NewBIP340PubKey key with
      | None => Panic
      | Some delBTCPK =>
          match getBTCDelegatorDelegations env valBTCPK delBTCPK with
          | None => Panic
          | Some btcDels =>
              sumVotingPower env valBTCPK btcTipHeight wValue covenantQuorum
                btcDelIter'
                (uint64 (valPower
                         + DelsVotingPower btcDels btcTipHeight wValue covenantQuorum))
          end
      end
  end.

(** The outer loop of the tally: the validators of the registry. *)
Fixpoint collectActive (env : Env) (btcTipHeight wValue covenantQuorum : Z)
  (btcValIter : list (bytes * BTCValidator))
  (activeBTCVals : list BTCValidatorWithMeta)
  : outcome (list BTCValidatorWithMeta) :=
  match btcValIter with
  | [] => Ok activeBTCVals
  | (valBTCPKBytes, _) :: btcValIter' =>
      match NewBIP340PubKey valBTCPKBytes with
      | None => Panic
      | Some valBTCPK =>
          match GetBTCValidator env valBTCPKBytes with
          | None => Panic
          | Some btcVal =>
              if IsSlashed btcVal
              then collectActive env btcTipHeight wValue covenantQuorum
                     btcValIter' activeBTCVals
              else
                valPower ← sumVotingPower env valBTCPK btcTipHeight wValue
                             covenantQuorum (btcDelegatorStore env valBTCPK) 0;
                if 0 <? valPower
                then collectActive env btcTipHeight wValue covenantQuorum
                       btcValIter'
                       (activeBTCVals
                          ++ [{| BtcPk := valBTCPK; VotingPower := valPower |}])
                else collectActive env btcTipHeight wValue covenantQuorum
                       btcValIter' activeBTCVals
          end
      end
  end.

(** The final loop of the tally: one write per active validator. *)
Fixpoint setVotingPowers (kv : KVStore) (height : Z)
  (activeBTCVals : list BTCValidatorWithMeta) : outcome KVStore :=
  match activeBTCVals with
  | [] => Ok kv
  | btcVal :: rest =>
      kv' ← SetVotingPower kv (MustMarshal (BtcPk btcVal)) height
              (VotingPower btcVal);
      setVotingPowers kv' height rest
  end.

Definition RecordVotingPowerTable (env : Env) (kv : KVStore) : outcome KVStore :=
  let covenantQuorum := CovenantQuorum (GetParams env) in
  let babylonTipHeight := uint64 (BlockHeight env) in
  match GetCurrentBTCHeight env with
  | None => Ok kv
  | Some btcTipHeight =>
      let wValue := CheckpointFinalizationTimeout env in
      activeBTCVals ← collectActive env btcTipHeight wValue covenantQuorum
                        (btcValidatorStore env) [];
      if Nat.eqb (length activeBTCVals) 0 then Ok kv
      else
        let activeBTCVals :=
          FilterTopNBTCValidators activeBTCVals
            (MaxActiveBtcValidators (GetParams env)) in
        setVotingPowers kv babylonTipHeight activeBTCVals
  end.

End Keeper.

(** ** Predicates of the statements *)

(** What the tally may write for a validator: a registered validator that is
    not slashed, with a positive 64-bit power. *)
Definition candidate (env : Env) (m : BTCValidatorWithMeta) : Prop :=
  0 < VotingPower m < 2 ^ 64
  /\ exists v, GetBTCValidator env (BtcPk m) = Some v /\ IsSlashed v = false.

(** An entry whose value decodes to a positive power. *)
Definition positive_entry (e : bytes * bytes) : Prop :=
  exists power, BigEndianToUint64 (snd e) = Ok power /\ 0 < power.

(** A snapshot within a cap: every entry positive, at most [cap] entries. *)
Definition snapshot_within (cap : Z) (snapshot : list (bytes * bytes)) : Prop :=
  Forall positive_entry snapshot /\ Z.of_nat (length snapshot) <= cap.

(** Every key under the voting power prefix carries a full 8-byte height
    segment, as every key written by [SetVotingPower] does. *)
Definition height_keyed (VotingPowerKey : bytes) (kv : KVStore) : bool :=
  forallb (fun e => Nat.leb 8 (length (fst e)))
          (prefix_Iterator VotingPowerKey kv).

(** ** A concrete chain used to exercise the definitions

    One-byte store prefix, 32-byte keys, and the scenario of the
    specification: validators A (score 100), B (80), C (80) and a slashed D
    (score 500), with an active set capped at two. *)

Module Scenario.

Definition VotingPowerKey : bytes := [x05].
Definition BIP340PubKeyLen : nat := 32.
Definition ParsePubKey (_ : bytes) : bool := true.

Definition pkA : bytes := repeat x0a 32.
Definition pkB : bytes := repeat x0b 32.
Definition pkC : bytes := repeat x0c 32.
Definition pkD : bytes := repeat x0d 32.
Definition delegator : bytes := repeat x01 32.

Definition score (valBTCPK : bytes) : Z :=
  if bytes_eqb valBTCPK pkA then 100
  else if bytes_eqb valBTCPK pkB then 80
  else if bytes_eqb valBTCPK pkC then 80
  else if bytes_eqb valBTCPK pkD then 500
  else 0.

Definition dels (valBTCPK _ : bytes) : option BTCDelegatorDelegations :=
  Some {| DelsVotingPower := fun _ _ _ => score valBTCPK |}.

Definition registry : list (bytes * BTCValidator) :=
  [ (pkA, {| slashed := false |}); (pkB, {| slashed := false |});
    (pkC, {| slashed := false |}); (pkD, {| slashed := true |}) ].

Definition params : Params :=
  {| CovenantQuorum := 3; MaxActiveBtcValidators := 2 |}.

(** The chain at a block height, with a working tip lookup. *)
Definition env_at (height : Z) : Env :=
  {| BlockHeight := height;
     GetParams := params;
     CheckpointFinalizationTimeout := 100;
     GetCurrentBTCHeight := Some 1000;
     btcValidatorStore := registry;
     btcDelegatorStore := fun _ => [delegator];
     getBTCDelegatorDelegations := dels |}.

(** The same chain when the tip lookup fails. *)
Definition env_no_tip (height : Z) : Env :=
  {| BlockHeight := height;
     GetParams := params;
     CheckpointFinalizationTimeout := 100;
     GetCurrentBTCHeight := None;
     btcValidatorStore := registry;
     btcDelegatorStore := fun _ => [delegator];
     getBTCDelegatorDelegations := dels |}.

(** The same chain when no delegation scores. *)
Definition env_idle (height : Z) : Env :=
  {| BlockHeight := height;
     GetParams := params;
     CheckpointFinalizationTimeout := 100;
     GetCurrentBTCHeight := Some 1000;
     btcValidatorStore := registry;
     btcDelegatorStore := fun _ => [delegator];
     getBTCDelegatorDelegations := fun _ _ =>
       Some {| DelsVotingPower := fun _ _ _ => 0 |} |}.

(** The chain after validator A has been slashed. *)
Definition env_A_slashed (height : Z) : Env :=
  {| BlockHeight := height;
     GetParams := params;
     CheckpointFinalizationTimeout := 100;
     GetCurrentBTCHeight := Some 1000;
     btcValidatorStore :=
       [ (pkA, {| slashed := true |}); (pkB, {| slashed := false |});
         (pkC, {| slashed := false |}); (pkD, {| slashed := true |}) ];
     btcDelegatorStore := fun _ => [delegator];
     getBTCDelegatorDelegations := dels |}.

Definition tally (env : Env) (kv : KVStore) : outcome KVStore :=
  RecordVotingPowerTable VotingPowerKey BIP340PubKeyLen ParsePubKey env kv.

(** The store after the tally of height 7 on an empty store. *)
Definition kv7 : KVStore :=
  match tally (env_at 7) [] with
  | Ok kv => kv
  | Panic => []
  end.

(** The store after the tally of height 8 that follows. *)
Definition kv8 : KVStore :=
  match tally (env_at 8) kv7 with
  | Ok kv => kv
  | Panic => []
  end.

End Scenario.

(** ** Further predicates of the statements *)

(** The number a stored value denotes: zero for the empty slice, otherwise
    the big-endian number of its first eight bytes. *)
Definition stored_power (value : bytes) : Z :=
  match value with
  | [] => 0
  | _ :: _ => be_value (firstn 8 value)
  end.

(** What one delegator adds to the power of a validator in the inner loop of
    the tally: the voting power of its delegations, before the 64-bit
    wrap-around of the running sum. *)
Definition delegationScore (env : Env) (valBTCPK : bytes) (T w Q : Z)
  (delBTCPK : bytes) : Z :=
  match getBTCDelegatorDelegations env valBTCPK delBTCPK with
  | Some btcDels => DelsVotingPower btcDels T w Q
  | None => 0
  end.

(** Every value under the voting power prefix has the 8 bytes of an encoded
    power, as every value written by [SetVotingPower] does. *)
Definition power_valued (VotingPowerKey : bytes) (kv : KVStore) : bool :=
  forallb (fun e => Nat.eqb (length (snd e)) 8)
          (prefix_Iterator VotingPowerKey kv).

(** A candidate together with where its power comes from: its key decodes,
    its validator is registered and not slashed, and its power is the
    positive sum the inner loop computes for it at BTC tip height [T]. *)
Definition scored_candidate (BIP340PubKeyLen : nat) (ParsePubKey : bytes -> bool)
  (env : Env) (T : Z) (m : BTCValidatorWithMeta) : Prop :=
  NewBIP340PubKey BIP340PubKeyLen ParsePubKey (BtcPk m) = Some (BtcPk m)
  /\ (exists v, GetBTCValidator env (BtcPk m) = Some v /\ IsSlashed v = false)
  /\ sumVotingPower BIP340PubKeyLen ParsePubKey env (BtcPk m) T
       (CheckpointFinalizationTimeout env) (CovenantQuorum (GetParams env))
       (btcDelegatorStore env (BtcPk m)) 0 = Ok (VotingPower m)
  /\ 0 < VotingPower m.

(** What a lookup of [key] finds after the writes of the tally for the
    validators [l] at [height], when it found [before] before them: the
    value of the last write that falls on the key. *)
Fixpoint written (VotingPowerKey : bytes) (height : Z)
  (l : list BTCValidatorWithMeta) (key : bytes) (before : option bytes)
  : option bytes :=
  match l with
  | [] => before
  | m :: l' =>
      written VotingPowerKey height l' key
        (if bytes_eqb (votingPowerStore VotingPowerKey height ++ BtcPk m) key
         then Some (Uint64ToBigEndian (VotingPower m))
         else before)
  end.

(** The tally as its comment says it is triggered, once upon each
    EndBlock: one run per block of [blocks], in order, each on the store
    the run before it left. *)
Fixpoint runTallies (VotingPowerKey : bytes) (BIP340PubKeyLen : nat)
  (ParsePubKey : bytes -> bool) (blocks : list Env) (kv : KVStore)
  : outcome KVStore :=
  match blocks with
  | [] => Ok kv
  | env :: blocks' =>
      kv' ← RecordVotingPowerTable VotingPowerKey BIP340PubKeyLen ParsePubKey
              env kv;
      runTallies VotingPowerKey BIP340PubKeyLen ParsePubKey blocks' kv'
  end.

(** ** The BLS signature message of the checkpointing types

    [ValidateBasic] and [GetSigners] of [MsgAddBlsSig].  The message type is
    generated code: it is seen through the read [m.BlsSig.SignerAddress],
    which panics when it dereferences a nil pointer.  Addresses and the
    bech32 decoder belong to the SDK. *)

Section Msgs.

Variable MsgAddBlsSig : Type.
Variable AccAddress : Type.
Variable Bech32Error : Type.

(** [m.BlsSig.SignerAddress]. *)
Variable SignerAddress : MsgAddBlsSig -> outcome string.

(** [sdk.AccAddressFromBech32]: an address, or an error. *)
Variable AccAddressFromBech32 : string -> AccAddress + Bech32Error.

(** [None] is the nil error. *)
Definition ValidateBasic (m : MsgAddBlsSig) : outcome (option Bech32Error) :=
  address ← SignerAddress m;
  match AccAddressFromBech32 address with
  | inr err => Ok (Some err)
  | inl _ => Ok None
  end.

Definition GetSigners (m : MsgAddBlsSig) : outcome (list AccAddress) :=
  address ← SignerAddress m;
  match AccAddressFromBech32 address with
  | inr err => Panic
  | inl signer => Ok [signer]
  end.

End Msgs.

Arguments ValidateBasic {MsgAddBlsSig AccAddress Bech32Error}
  SignerAddress AccAddressFromBech32 m.
Arguments GetSigners {MsgAddBlsSig AccAddress Bech32Error}
  SignerAddress AccAddressFromBech32 m.

(** A decoder for exercising the message: it refuses the empty string, as
    the SDK does, and takes any other string as its own address. *)
Module MsgScenario.

Definition decode (address : string) : string + string :=
  match address with
  | EmptyString => inr "empty address string is not allowed"%string
  | _ => inl address
  end.

Definition read (m : option string) : outcome string :=
  match m with
  | Some address => Ok address
  | None => Panic
  end.

End MsgScenario.

(** More of the concrete chain: the table of height 7, a key of another
    prefix of the module store, and a registry with a key one byte short. *)
Module ScenarioMore.

Import Scenario.

Definition table7 : gmap string Z :=
  match GetVotingPowerTable VotingPowerKey BIP340PubKeyLen ParsePubKey kv7 7 with
  | Ok (Some valSet) => valSet
  | _ => ∅
  end.

Definition registry_key : bytes := x02 :: pkA.

Definition short_key : bytes := repeat x0b 31.

Definition env_corrupted (height : Z) : Env :=
  {| BlockHeight := height;
     GetParams := params;
     CheckpointFinalizationTimeout := 100;
     GetCurrentBTCHeight := Some 1000;
     btcValidatorStore :=
       [ (pkA, {| slashed := false |}); (short_key, {| slashed := false |}) ];
     btcDelegatorStore := fun _ => [delegator];
     getBTCDelegatorDelegations := dels |}.

(** The chain after the cap of the active set has been lowered to one, and
    the store after its tally of height 8. *)
Definition env_cap1 (height : Z) : Env :=
  {| BlockHeight := height;
     GetParams := {| CovenantQuorum := 3; MaxActiveBtcValidators := 1 |};
     CheckpointFinalizationTimeout := 100;
     GetCurrentBTCHeight := Some 1000;
     btcValidatorStore := registry;
     btcDelegatorStore := fun _ => [delegator];
     getBTCDelegatorDelegations := dels |}.

Definition kv8_cap1 : KVStore :=
  match tally (env_cap1 8) kv7 with
  | Ok kv => kv
  | Panic => []
  end.

(** Three delegators of validator A whose voting powers, 2^63, 2^63 and 5,
    overflow 64 bits when summed. *)
Definition del1 : bytes := repeat x01 32.
Definition del2 : bytes := repeat x02 32.
Definition del3 : bytes := repeat x03 32.

Definition big_dels (_ delBTCPK : bytes) : option BTCDelegatorDelegations :=
  Some {| DelsVotingPower := fun _ _ _ =>
            if bytes_eqb delBTCPK del3 then 5 else 2 ^ 63 |}.

Definition env_overflow (height : Z) : Env :=
  {| BlockHeight := height;
     GetParams := params;
     CheckpointFinalizationTimeout := 100;
     GetCurrentBTCHeight := Some 1000;
     btcValidatorStore := registry;
     btcDelegatorStore := fun _ => [del1; del2; del3];
     getBTCDelegatorDelegations := big_dels |}.

End ScenarioMore.

(** * Facts *)

(** ** Bytes *)

Lemma Z_of_byte_range (b : byte) : 0 <= Z_of_byte b < 256.
Proof.
  unfold Z_of_byte. pose proof (Byte.to_N_bounded b). lia.
Qed.

Lemma Z_of_byte_of_Z (z : Z) : Z_of_byte (byte_of_Z z) = z mod 256.
Proof.
  unfold Z_of_byte, byte_of_Z.
  assert (Hr : 0 <= z mod 256 < 256) by (apply Z.mod_pos_bound; lia).
  destruct (Byte.of_N (Z.to_N (z mod 256))) as [b|] eqn:E.
  - apply Byte.to_of_N in E. rewrite E. lia.
  - apply Byte.of_N_None_iff in E. lia.
Qed.

Lemma byte_of_Z_of_byte (b : byte) : byte_of_Z (Z_of_byte b) = b.
Proof.
  unfold byte_of_Z. pose proof (Z_of_byte_range b) as Hr.
  rewrite Z.mod_small by lia. unfold Z_of_byte.
  rewrite N2Z.id, Byte.of_to_N. reflexivity.
Qed.

Lemma Z_of_byte_inj (a b : byte) : Z_of_byte a = Z_of_byte b -> a = b.
Proof.
  intros E. rewrite <- (byte_of_Z_of_byte a), <- (byte_of_Z_of_byte b).
  now rewrite E.
Qed.

Lemma byte_eqb_refl (b : byte) : Byte.eqb b b = true.
Proof. now apply Byte.byte_dec_lb. Qed.

Lemma byte_eqb_true (a b : byte) : Byte.eqb a b = true <-> a = b.
Proof.
  split; [apply Byte.byte_dec_bl | apply Byte.byte_dec_lb].
Qed.

(** ** Big-endian encoding *)

Lemma lor_disjoint_add (a q n : Z) :
  0 <= n -> 0 <= a < 2 ^ n -> Z.lor a (q * 2 ^ n) = a + q * 2 ^ n.
Proof.
  intros Hn Ha. set (c := q * 2 ^ n).
  assert (Hc : c mod 2 ^ n = 0) by (apply Z.mod_mul; lia).
  assert (Hland : Z.land a c = 0).
  { apply Z.bits_inj'. intros i Hi. rewrite Z.land_spec, Z.bits_0.
    destruct (Z.ltb_spec i n) as [Hlt | Hge].
    - replace (Z.testbit c i) with false; [apply andb_false_r |].
      symmetry. rewrite <- (Z.mod_pow2_bits_low c n i) by lia.
      rewrite Hc. apply Z.bits_0.
    - replace (Z.testbit a i) with false; [reflexivity |].
      symmetry. destruct (Z.eq_dec a 0) as [-> | Hnz]; [apply Z.bits_0 |].
      apply Z.bits_above_log2; [lia |].
      apply Z.log2_lt_pow2; [lia |].
      apply Z.lt_le_trans with (2 ^ n); [lia |].
      apply Z.pow_le_mono_r; lia. }
  rewrite <- Z.lxor_lor by exact Hland.
  symmetry. apply Z.add_nocarry_lxor. exact Hland.
Qed.

Lemma be_value_acc (l : bytes) (acc : Z) :
  fold_left (fun a b => a * 256 + Z_of_byte b) l acc
  = acc * 256 ^ Z.of_nat (length l) + be_value l.
Proof.
  unfold be_value. revert acc.
  induction l as [| b l IH]; intros acc; simpl fold_left.
  - simpl. lia.
  - rewrite IH, (IH (0 * 256 + Z_of_byte b)).
    change (length (b :: l)) with (S (length l)).
    rewrite Nat2Z.inj_succ, Z.pow_succ_r by lia. ring.
Qed.

Lemma be_value_cons (b : byte) (l : bytes) :
  be_value (b :: l) = Z_of_byte b * 256 ^ Z.of_nat (length l) + be_value l.
Proof.
  unfold be_value at 1. simpl fold_left. rewrite be_value_acc. ring.
Qed.

Lemma be_value_range (l : bytes) : 0 <= be_value l < 256 ^ Z.of_nat (length l).
Proof.
  induction l as [| b l IH].
  - cbn. lia.
  - rewrite be_value_cons. change (length (b :: l)) with (S (length l)).
    rewrite Nat2Z.inj_succ, Z.pow_succ_r by lia.
    pose proof (Z_of_byte_range b). nia.
Qed.

Lemma Uint64_be_value (b : bytes) :
  (8 <= length b)%nat -> Uint64 b = Ok (be_value (firstn 8 b)).
Proof.
  intros Hlen.
  destruct b as [| b0 [| b1 [| b2 [| b3 [| b4 [| b5 [| b6 [| b7 b]]]]]]]];
    try (simpl in Hlen; lia).
  simpl firstn. change (firstn 0 b) with (@nil byte). cbn [Uint64]. f_equal.
  unfold be_value. cbn [fold_left].
  rewrite !Z.shiftl_mul_pow2 by lia.
  pose proof (Z_of_byte_range b0). pose proof (Z_of_byte_range b1).
  pose proof (Z_of_byte_range b2). pose proof (Z_of_byte_range b3).
  pose proof (Z_of_byte_range b4). pose proof (Z_of_byte_range b5).
  pose proof (Z_of_byte_range b6). pose proof (Z_of_byte_range b7).
  set (x0 := Z_of_byte b0) in *. set (x1 := Z_of_byte b1) in *.
  set (x2 := Z_of_byte b2) in *. set (x3 := Z_of_byte b3) in *.
  set (x4 := Z_of_byte b4) in *. set (x5 := Z_of_byte b5) in *.
  set (x6 := Z_of_byte b6) in *. set (x7 := Z_of_byte b7) in *.
  rewrite (lor_disjoint_add (x1 * _) x0 56) by lia.
  replace (x1 * 2 ^ 48 + x0 * 2 ^ 56)
    with ((x1 + x0 * 2 ^ 8) * 2 ^ 48) by ring.
  rewrite (lor_disjoint_add (x2 * _) _ 48) by lia.
  replace (x2 * 2 ^ 40 + (x1 + x0 * 2 ^ 8) * 2 ^ 48)
    with ((x2 + (x1 + x0 * 2 ^ 8) * 2 ^ 8) * 2 ^ 40) by ring.
  rewrite (lor_disjoint_add (x3 * _) _ 40) by lia.
  replace (x3 * 2 ^ 32 + (x2 + (x1 + x0 * 2 ^ 8) * 2 ^ 8) * 2 ^ 40)
    with ((x3 + (x2 + (x1 + x0 * 2 ^ 8) * 2 ^ 8) * 2 ^ 8) * 2 ^ 32) by ring.
  rewrite (lor_disjoint_add (x4 * _) _ 32) by lia.
  replace (x4 * 2 ^ 24 + (x3 + (x2 + (x1 + x0 * 2 ^ 8) * 2 ^ 8) * 2 ^ 8) * 2 ^ 32)
    with ((x4 + (x3 + (x2 + (x1 + x0 * 2 ^ 8) * 2 ^ 8) * 2 ^ 8) * 2 ^ 8) * 2 ^ 24)
    by ring.
  rewrite (lor_disjoint_add (x5 * _) _ 24) by lia.
  replace (x5 * 2 ^ 16
           + (x4 + (x3 + (x2 + (x1 + x0 * 2 ^ 8) * 2 ^ 8) * 2 ^ 8) * 2 ^ 8) * 2 ^ 24)
    with ((x5 + (x4 + (x3 + (x2 + (x1 + x0 * 2 ^ 8) * 2 ^ 8) * 2 ^ 8) * 2 ^ 8)
                * 2 ^ 8) * 2 ^ 16) by ring.
  rewrite (lor_disjoint_add (x6 * _) _ 16) by lia.
  replace (x6 * 2 ^ 8
           + (x5 + (x4 + (x3 + (x2 + (x1 + x0 * 2 ^ 8) * 2 ^ 8) * 2 ^ 8) * 2 ^ 8)
                   * 2 ^ 8) * 2 ^ 16)
    with ((x6 + (x5 + (x4 + (x3 + (x2 + (x1 + x0 * 2 ^ 8) * 2 ^ 8) * 2 ^ 8) * 2 ^ 8)
                      * 2 ^ 8) * 2 ^ 8) * 2 ^ 8) by ring.
  rewrite (lor_disjoint_add x7 _ 8) by lia.
  ring.
Qed.

Lemma be_value_PutUint64 (v : Z) : be_value (PutUint64 v) = v mod 2 ^ 64.
Proof.
  unfold PutUint64, be_value. cbn [fold_left].
  rewrite !Z_of_byte_of_Z, !Z.shiftr_div_pow2 by lia.
  assert (E : forall k, 0 <= k ->
            v mod 2 ^ (k + 8) = v mod 2 ^ k + 2 ^ k * ((v / 2 ^ k) mod 256)).
  { intros k Hk. rewrite Z.pow_add_r by lia. apply Z.rem_mul_r; lia. }
  pose proof (E 56 ltac:(lia)) as E56. pose proof (E 48 ltac:(lia)) as E48.
  pose proof (E 40 ltac:(lia)) as E40. pose proof (E 32 ltac:(lia)) as E32.
  pose proof (E 24 ltac:(lia)) as E24. pose proof (E 16 ltac:(lia)) as E16.
  pose proof (E 8 ltac:(lia)) as E8. clear E.
  change (2 ^ (56 + 8)) with (2 ^ 64) in E56.
  change (2 ^ (48 + 8)) with (2 ^ 56) in E48.
  change (2 ^ (40 + 8)) with (2 ^ 48) in E40.
  change (2 ^ (32 + 8)) with (2 ^ 40) in E32.
  change (2 ^ (24 + 8)) with (2 ^ 32) in E24.
  change (2 ^ (16 + 8)) with (2 ^ 24) in E16.
  change (2 ^ (8 + 8)) with (2 ^ 16) in E8.
  rewrite E56, E48, E40, E32, E24, E16, E8.
  change (v mod 2 ^ 8) with (v mod 256).
  ring.
Qed.

Lemma length_Uint64ToBigEndian (i : Z) : length (Uint64ToBigEndian i) = 8%nat.
Proof. reflexivity. Qed.

Lemma uint64_range (z : Z) : 0 <= uint64 z < 2 ^ 64.
Proof. unfold uint64. apply Z.mod_pos_bound. lia. Qed.

Lemma uint64_small (z : Z) : 0 <= z < 2 ^ 64 -> uint64 z = z.
Proof. intros H. unfold uint64. now apply Z.mod_small. Qed.

Lemma uint64_idem (z : Z) : uint64 (uint64 z) = uint64 z.
Proof. apply uint64_small, uint64_range. Qed.

Lemma be_value_Uint64ToBigEndian (i : Z) :
  be_value (Uint64ToBigEndian i) = uint64 i.
Proof.
  unfold Uint64ToBigEndian. rewrite be_value_PutUint64. apply uint64_idem.
Qed.

(** Decoding reads back what was encoded, whatever follows the eight bytes. *)
Lemma BigEndianToUint64_encode (i : Z) (rest : bytes) :
  BigEndianToUint64 (Uint64ToBigEndian i ++ rest) = Ok (uint64 i).
Proof.
  replace (BigEndianToUint64 (Uint64ToBigEndian i ++ rest))
    with (Uint64 (Uint64ToBigEndian i ++ rest)) by reflexivity.
  rewrite Uint64_be_value
    by (rewrite length_app, length_Uint64ToBigEndian; lia).
  rewrite firstn_app, length_Uint64ToBigEndian.
  change (firstn (8 - 8) rest) with (@nil byte).
  rewrite firstn_all2 by (rewrite length_Uint64ToBigEndian; lia).
  rewrite app_nil_r. f_equal. apply be_value_Uint64ToBigEndian.
Qed.

Lemma Uint64ToBigEndian_inj (a b : Z) :
  Uint64ToBigEndian a = Uint64ToBigEndian b -> uint64 a = uint64 b.
Proof.
  intros E. rewrite <- (be_value_Uint64ToBigEndian a), E.
  apply be_value_Uint64ToBigEndian.
Qed.

Lemma byte_of_Z_eq (z : Z) (b : byte) : z mod 256 = Z_of_byte b -> byte_of_Z z = b.
Proof.
  intros E. apply Z_of_byte_inj. now rewrite Z_of_byte_of_Z.
Qed.

(** ** Order of byte slices *)

Lemma bytes_compare_refl (a : bytes) : bytes_compare a a = Eq.
Proof.
  induction a as [| x a IH]; [reflexivity |].
  cbn [bytes_compare]. now rewrite Z.compare_refl.
Qed.

Lemma bytes_compare_eq (a b : bytes) : bytes_compare a b = Eq <-> a = b.
Proof.
  split; [| intros ->; apply bytes_compare_refl].
  revert b. induction a as [| x a IH]; intros [| y b] H; try discriminate H.
  - reflexivity.
  - cbn [bytes_compare] in H.
    destruct (Z.compare_spec (Z_of_byte x) (Z_of_byte y)) as [E | |];
      try discriminate H.
    apply Z_of_byte_inj in E. subst y. f_equal. now apply IH.
Qed.

Lemma bytes_compare_antisym (a b : bytes) :
  bytes_compare b a = CompOpp (bytes_compare a b).
Proof.
  revert b. induction a as [| x a IH]; intros [| y b]; try reflexivity.
  cbn [bytes_compare]. rewrite (Z.compare_antisym (Z_of_byte x) (Z_of_byte y)).
  destruct (Z_of_byte x ?= Z_of_byte y); cbn [CompOpp]; auto.
Qed.

Lemma bytes_eqb_eq (a b : bytes) : bytes_eqb a b = true <-> a = b.
Proof.
  unfold bytes_eqb. rewrite <- bytes_compare_eq.
  destruct (bytes_compare a b); split; congruence.
Qed.

Lemma bytes_eqb_refl (a : bytes) : bytes_eqb a a = true.
Proof. now apply bytes_eqb_eq. Qed.

Lemma bytes_eqb_neq (a b : bytes) : bytes_eqb a b = false <-> a <> b.
Proof.
  rewrite <- bytes_eqb_eq. destruct (bytes_eqb a b); split; congruence.
Qed.

Lemma bytes_ltb_trans (a b c : bytes) :
  bytes_ltb a b = true -> bytes_ltb b c = true -> bytes_ltb a c = true.
Proof.
  unfold bytes_ltb. revert b c.
  induction a as [| x a IH]; intros [| y b] [| z c]; cbn [bytes_compare];
    try congruence.
  destruct (Z.compare_spec (Z_of_byte x) (Z_of_byte y)) as [E1 | L1 | G1];
    destruct (Z.compare_spec (Z_of_byte y) (Z_of_byte z)) as [E2 | L2 | G2];
    try congruence; intros H1 H2.
  - rewrite E1, E2, Z.compare_refl. eapply IH; eassumption.
  - replace (Z_of_byte x ?= Z_of_byte z) with Lt; [reflexivity |].
    symmetry. apply Z.compare_lt_iff. lia.
  - replace (Z_of_byte x ?= Z_of_byte z) with Lt; [reflexivity |].
    symmetry. apply Z.compare_lt_iff. lia.
  - replace (Z_of_byte x ?= Z_of_byte z) with Lt; [reflexivity |].
    symmetry. apply Z.compare_lt_iff. lia.
Qed.

Lemma bytes_ltb_irrefl (a : bytes) : bytes_ltb a a = false.
Proof. unfold bytes_ltb. now rewrite bytes_compare_refl. Qed.

Lemma bytes_compare_app (p a b : bytes) :
  bytes_compare (p ++ a) (p ++ b) = bytes_compare a b.
Proof.
  induction p as [| x p IH]; [reflexivity |].
  cbn [app bytes_compare]. now rewrite Z.compare_refl.
Qed.

(** On slices of one length the lexicographic order is the order of the
    numbers they denote. *)
Lemma bytes_compare_be_value (a b : bytes) :
  length a = length b -> bytes_compare a b = (be_value a ?= be_value b).
Proof.
  revert b. induction a as [| x a IH]; intros [| y b] Hlen;
    try discriminate Hlen; [reflexivity |].
  injection Hlen as Hlen. cbn [bytes_compare].
  rewrite !be_value_cons, <- Hlen.
  pose proof (be_value_range a) as Ha. pose proof (be_value_range b) as Hb.
  rewrite <- Hlen in Hb.
  set (P := 256 ^ Z.of_nat (length a)) in *.
  destruct (Z.compare_spec (Z_of_byte x) (Z_of_byte y)) as [E | L | G].
  - rewrite E, Z.add_compare_mono_l. now apply IH.
  - symmetry. apply Z.compare_lt_iff. nia.
  - symmetry. apply Z.compare_gt_iff. nia.
Qed.

Lemma be_value_inj (a b : bytes) :
  length a = length b -> be_value a = be_value b -> a = b.
Proof.
  intros Hlen E. apply bytes_compare_eq.
  rewrite bytes_compare_be_value by exact Hlen. rewrite E. apply Z.compare_refl.
Qed.

(** Encoding gives back the eight bytes that were decoded. *)
Lemma Uint64ToBigEndian_be_value (l : bytes) :
  length l = 8%nat -> Uint64ToBigEndian (be_value l) = l.
Proof.
  intros Hlen. apply be_value_inj.
  - now rewrite length_Uint64ToBigEndian.
  - rewrite be_value_Uint64ToBigEndian. apply uint64_small.
    pose proof (be_value_range l) as Hr. rewrite Hlen in Hr. exact Hr.
Qed.

(** ** Prefixes *)

Lemma has_prefix_app (p r : bytes) : has_prefix p (p ++ r) = true.
Proof.
  induction p as [| x p IH]; [reflexivity |].
  cbn [app has_prefix]. now rewrite byte_eqb_refl.
Qed.

Lemma has_prefix_split (p k : bytes) :
  has_prefix p k = true -> k = p ++ skipn (length p) k.
Proof.
  revert k. induction p as [| x p IH]; intros k H; [reflexivity |].
  destruct k as [| y k]; [discriminate H |].
  cbn [has_prefix] in H. apply andb_prop in H as [Hxy Hp].
  apply byte_eqb_true in Hxy. subst y.
  cbn [length skipn app]. f_equal. now apply IH.
Qed.

Lemma has_prefix_app_l (p q k : bytes) :
  has_prefix (p ++ q) (p ++ k) = has_prefix q k.
Proof.
  induction p as [| x p IH]; [reflexivity |].
  cbn [app has_prefix]. now rewrite byte_eqb_refl.
Qed.

Lemma has_prefix_weaken (p q k : bytes) :
  has_prefix (p ++ q) k = true -> has_prefix p k = true.
Proof.
  revert k. induction p as [| x p IH]; intros k H; [reflexivity |].
  destruct k as [| y k]; [discriminate H |].
  cbn [app has_prefix] in *. apply andb_prop in H as [Hxy Hp].
  rewrite Hxy. cbn [andb]. now apply IH.
Qed.

Lemma has_prefix_same_length (a b r : bytes) :
  length a = length b -> has_prefix a (b ++ r) = true -> a = b.
Proof.
  revert b. induction a as [| x a IH]; intros [| y b] Hlen H;
    try discriminate Hlen; [reflexivity |].
  injection Hlen as Hlen. cbn [app has_prefix] in H.
  apply andb_prop in H as [Hxy Hp]. apply byte_eqb_true in Hxy. subst y.
  f_equal. now apply IH.
Qed.

Lemma skipn_prefix (p r : bytes) : skipn (length p) (p ++ r) = r.
Proof. induction p as [| x p IH]; [reflexivity | exact IH]. Qed.

Lemma has_prefix_length (p k : bytes) :
  has_prefix p k = true -> (length p <= length k)%nat.
Proof.
  intros H. apply has_prefix_split in H. rewrite H, length_app. lia.
Qed.

(** ** The store *)

Lemma store_get_insert_eq (s : KVStore) (k v : bytes) :
  store_get (store_insert s k v) k = Some v.
Proof.
  induction s as [| [k' v'] s IH]; cbn [store_insert store_get].
  - now rewrite bytes_eqb_refl.
  - destruct (bytes_compare k k') eqn:E; cbn [store_get].
    + now rewrite bytes_eqb_refl.
    + now rewrite bytes_eqb_refl.
    + replace (bytes_eqb k' k) with false; [exact IH |].
      symmetry. apply bytes_eqb_neq. intros ->.
      rewrite bytes_compare_refl in E. discriminate E.
Qed.

Lemma store_get_insert_ne (s : KVStore) (k v k2 : bytes) :
  k <> k2 -> store_get (store_insert s k v) k2 = store_get s k2.
Proof.
  intros Hne. apply bytes_eqb_neq in Hne.
  induction s as [| [k' v'] s IH]; cbn [store_insert store_get].
  - now rewrite Hne.
  - destruct (bytes_compare k k') eqn:E; cbn [store_get].
    + apply bytes_compare_eq in E. subst k'. now rewrite Hne.
    + now rewrite Hne.
    + now rewrite IH.
Qed.

Lemma In_store_insert (s : KVStore) (k v : bytes) (e : bytes * bytes) :
  In e (store_insert s k v) -> e = (k, v) \/ In e s.
Proof.
  induction s as [| [k' v'] s IH]; cbn [store_insert]; intros H.
  - destruct H as [<- | []]. now left.
  - destruct (bytes_compare k k'); cbn [In] in *.
    + destruct H as [<- | H]; auto.
    + destruct H as [<- | H]; auto.
    + destruct H as [<- | H]; auto. apply IH in H. tauto.
Qed.

Lemma In_store_insert_new (s : KVStore) (k v : bytes) :
  In (k, v) (store_insert s k v).
Proof.
  induction s as [| [k' v'] s IH]; cbn [store_insert]; [now left |].
  destruct (bytes_compare k k'); cbn [In]; auto.
Qed.

Lemma store_get_None (s : KVStore) (k : bytes) :
  store_get s k = None <-> ~ In k (map fst s).
Proof.
  induction s as [| [k' v'] s IH]; cbn [store_get map In fst]; [tauto |].
  destruct (bytes_eqb k' k) eqn:E.
  - apply bytes_eqb_eq in E. split; [discriminate | tauto].
  - apply bytes_eqb_neq in E. rewrite IH. tauto.
Qed.

Lemma store_get_In (s : KVStore) (k v : bytes) :
  store_get s k = Some v -> In (k, v) s.
Proof.
  induction s as [| [k' v'] s IH]; cbn [store_get]; [discriminate |].
  destruct (bytes_eqb k' k) eqn:E.
  - apply bytes_eqb_eq in E. intros [= ->]. subst. now left.
  - intros H. right. now apply IH.
Qed.

Section Filter.

Variable keep : bytes -> bool.

(** A write outside the kept keys leaves the kept entries as they were. *)
Lemma filter_store_insert_other (s : KVStore) (k v : bytes) :
  keep k = false ->
  List.filter (fun e => keep (fst e)) (store_insert s k v)
  = List.filter (fun e => keep (fst e)) s.
Proof.
  intros Hk. induction s as [| [k' v'] s IH]; cbn [store_insert List.filter fst].
  - now rewrite Hk.
  - destruct (bytes_compare k k') eqn:E; cbn [List.filter fst].
    + apply bytes_compare_eq in E. subst k'. now rewrite Hk.
    + now rewrite Hk.
    + now rewrite IH.
Qed.

(** A write adds at most one kept entry. *)
Lemma filter_store_insert_length (s : KVStore) (k v : bytes) :
  (length (List.filter (fun e => keep (fst e)) (store_insert s k v))
   <= S (length (List.filter (fun e => keep (fst e)) s)))%nat.
Proof.
  induction s as [| [k' v'] s IH]; cbn [store_insert List.filter fst].
  - destruct (keep k); cbn [length]; lia.
  - destruct (bytes_compare k k') eqn:E; cbn [List.filter fst].
    + destruct (keep k), (keep k'); cbn [length]; lia.
    + destruct (keep k), (keep k'); cbn [length]; lia.
    + destruct (keep k'); cbn [length]; lia.
Qed.

End Filter.

(** ** Sorted stores *)

Lemma store_sorted_tail (e : bytes * bytes) (s : KVStore) :
  store_sorted (e :: s) = true -> store_sorted s = true.
Proof.
  destruct e as [k v]. cbn [store_sorted].
  destruct s as [| [k' v'] s]; [reflexivity |].
  intros H. now apply andb_prop in H as [_ H].
Qed.

Lemma store_sorted_head_lt (k v : bytes) (s : KVStore) :
  store_sorted ((k, v) :: s) = true ->
  forall e, In e s -> bytes_ltb k (fst e) = true.
Proof.
  revert k v. induction s as [| [k' v'] s IH]; intros k v Hs e He;
    [destruct He |].
  cbn [store_sorted] in Hs. apply andb_prop in Hs as [Hlt Hs].
  destruct He as [<- | He]; [exact Hlt |].
  apply bytes_ltb_trans with k'; [exact Hlt |].
  now apply (IH k' v').
Qed.

Lemma store_sorted_cons (k v : bytes) (s : KVStore) :
  store_sorted s = true ->
  (forall e, In e s -> bytes_ltb k (fst e) = true) ->
  store_sorted ((k, v) :: s) = true.
Proof.
  intros Hs Hlt. cbn [store_sorted]. destruct s as [| [k' v'] s]; [reflexivity |].
  rewrite Hs, andb_true_r. apply (Hlt (k', v')). now left.
Qed.

Lemma store_sorted_insert (s : KVStore) (k v : bytes) :
  store_sorted s = true -> store_sorted (store_insert s k v) = true.
Proof.
  induction s as [| [k' v'] s IH]; intros Hs; cbn [store_insert];
    [reflexivity |].
  pose proof (store_sorted_head_lt _ _ _ Hs) as Hhead.
  pose proof (store_sorted_tail _ _ Hs) as Htail.
  destruct (bytes_compare k k') eqn:E.
  - apply bytes_compare_eq in E. subst k'.
    now apply store_sorted_cons.
  - apply store_sorted_cons; [exact Hs |].
    intros e [<- | He]; [unfold bytes_ltb; cbn [fst]; now rewrite E |].
    apply bytes_ltb_trans with k'; [unfold bytes_ltb; now rewrite E |].
    now apply Hhead.
  - apply store_sorted_cons; [now apply IH |].
    intros e He. apply In_store_insert in He as [-> | He]; [| now apply Hhead].
    unfold bytes_ltb. cbn [fst]. rewrite bytes_compare_antisym, E. reflexivity.
Qed.

(** In a sorted store a key occurs once, so every entry is the one a lookup
    finds. *)
Lemma store_sorted_get (s : KVStore) (k v : bytes) :
  store_sorted s = true -> In (k, v) s -> store_get s k = Some v.
Proof.
  induction s as [| [k' v'] s IH]; intros Hs Hin; [destruct Hin |].
  cbn [store_get]. destruct Hin as [[= -> ->] | Hin].
  - now rewrite bytes_eqb_refl.
  - pose proof (store_sorted_head_lt _ _ _ Hs _ Hin) as Hlt. cbn [fst] in Hlt.
    replace (bytes_eqb k' k) with false.
    + apply IH; [now apply store_sorted_tail in Hs | exact Hin].
    + symmetry. apply bytes_eqb_neq. intros ->.
      rewrite bytes_ltb_irrefl in Hlt. discriminate Hlt.
Qed.

(** The first kept entry of a sorted store has the least kept key. *)
Lemma filter_sorted_head (f : bytes * bytes -> bool) (s : KVStore)
  (e0 : bytes * bytes) (rest : KVStore) :
  store_sorted s = true ->
  List.filter f s = e0 :: rest ->
  forall e, In e rest -> bytes_ltb (fst e0) (fst e) = true.
Proof.
  induction s as [| [k v] s IH]; intros Hs Hf e He; [discriminate Hf |].
  cbn [List.filter] in Hf. destruct (f (k, v)).
  - injection Hf as <- <-. apply filter_In in He as [He _].
    now apply (store_sorted_head_lt _ _ _ Hs).
  - apply IH; [now apply store_sorted_tail in Hs | exact Hf | exact He].
Qed.

(** ** Iterating a prefix store *)

Lemma In_prefix_Iterator (pfx : bytes) (s : KVStore) (k v : bytes) :
  In (k, v) (prefix_Iterator pfx s) <-> In (pfx ++ k, v) s.
Proof.
  unfold prefix_Iterator. rewrite in_map_iff. split.
  - intros [[k' v'] [E Hin]]. apply filter_In in Hin as [Hin Hp].
    cbn [fst snd] in *. injection E as <- <-.
    now rewrite <- (has_prefix_split _ _ Hp).
  - intros Hin. exists (pfx ++ k, v). cbn [fst snd]. split.
    + now rewrite skipn_prefix.
    + apply filter_In. split; [exact Hin | apply has_prefix_app].
Qed.

Lemma prefix_Iterator_insert_other (pfx : bytes) (s : KVStore) (k v : bytes) :
  has_prefix pfx k = false ->
  prefix_Iterator pfx (store_insert s k v) = prefix_Iterator pfx s.
Proof.
  intros Hk. unfold prefix_Iterator.
  now rewrite (filter_store_insert_other (has_prefix pfx)).
Qed.

Lemma prefix_Iterator_insert_length (pfx : bytes) (s : KVStore) (k v : bytes) :
  (length (prefix_Iterator pfx (store_insert s k v))
   <= S (length (prefix_Iterator pfx s)))%nat.
Proof.
  unfold prefix_Iterator. rewrite !length_map.
  apply (filter_store_insert_length (has_prefix pfx)).
Qed.

Lemma In_prefix_Iterator_insert (pfx : bytes) (s : KVStore) (k v k' v' : bytes) :
  In (k', v') (prefix_Iterator pfx (store_insert s (pfx ++ k) v)) ->
  (k' = k /\ v' = v) \/ In (k', v') (prefix_Iterator pfx s).
Proof.
  rewrite !In_prefix_Iterator. intros H.
  apply In_store_insert in H as [E | H]; [left | now right].
  injection E as E ->. apply app_inv_head in E. now split.
Qed.

Lemma prefix_Get_None (pfx : bytes) (s : KVStore) (k : bytes) :
  prefix_Get pfx s k = None <-> ~ In k (map fst (prefix_Iterator pfx s)).
Proof.
  unfold prefix_Get. rewrite store_get_None. split; intros H Hin; apply H.
  - apply in_map_iff in Hin as [[k' v] [E Hin]]. cbn [fst] in E. subst k'.
    apply In_prefix_Iterator in Hin.
    apply in_map_iff. now exists (pfx ++ k, v).
  - apply in_map_iff in Hin as [[k' v] [E Hin]]. cbn [fst] in E. subst k'.
    apply in_map_iff. exists (k, v). split; [reflexivity |].
    now apply In_prefix_Iterator.
Qed.

Lemma prefix_Get_In (pfx : bytes) (s : KVStore) (k v : bytes) :
  store_sorted s = true ->
  In (k, v) (prefix_Iterator pfx s) -> prefix_Get pfx s k = Some v.
Proof.
  intros Hs Hin. apply In_prefix_Iterator in Hin.
  unfold prefix_Get. now apply store_sorted_get.
Qed.

Lemma prefix_Iterator_NoDup (pfx : bytes) (s : KVStore) :
  store_sorted s = true -> NoDup (map fst (prefix_Iterator pfx s)).
Proof.
  unfold prefix_Iterator. rewrite map_map. cbn [fst].
  induction s as [| [k v] s IH]; intros Hs; cbn [List.filter map fst];
    [constructor |].
  pose proof (store_sorted_tail _ _ Hs) as Htail.
  destruct (has_prefix pfx k) eqn:Hp; [| now apply IH].
  cbn [map fst]. constructor; [| now apply IH].
  intros Hin. apply in_map_iff in Hin as [[k' v'] [E Hin]].
  apply filter_In in Hin as [Hin Hp']. cbn [fst] in *.
  pose proof (store_sorted_head_lt _ _ _ Hs _ Hin) as Hlt. cbn [fst] in Hlt.
  assert (k' = k) as ->.
  { rewrite (has_prefix_split _ _ Hp), (has_prefix_split _ _ Hp'). now rewrite E. }
  rewrite bytes_ltb_irrefl in Hlt. discriminate Hlt.
Qed.

Lemma bytes_compare_firstn (n : nat) (a b : bytes) :
  bytes_compare a b <> Gt -> bytes_compare (firstn n a) (firstn n b) <> Gt.
Proof.
  revert a b. induction n as [| n IH]; intros a b H.
  - rewrite !firstn_O. discriminate.
  - destruct a as [| x a], b as [| y b]; cbn [firstn bytes_compare] in *;
      try discriminate; [congruence |].
    destruct (Z_of_byte x ?= Z_of_byte y); [now apply IH | discriminate | congruence].
Qed.

(** The first entry of an iterator over a sorted store has the least key. *)
Lemma prefix_Iterator_head_least (pfx : bytes) (kv : KVStore) (k0 v0 : bytes)
  (rest : list (bytes * bytes)) :
  store_sorted kv = true ->
  prefix_Iterator pfx kv = (k0, v0) :: rest ->
  forall k v, In (k, v) rest -> bytes_ltb k0 k = true.
Proof.
  unfold prefix_Iterator. intros Hsorted Hiter k v Hin.
  destruct (List.filter _ kv) as [| [rk0 rv0] rrest] eqn:Ef;
    [discriminate Hiter |].
  cbn [map fst snd] in Hiter. injection Hiter as <- <- <-.
  apply in_map_iff in Hin as [[rk rv] [E Hin]]. cbn [fst snd] in E.
  injection E as <- <-.
  pose proof (filter_sorted_head _ _ _ _ Hsorted Ef _ Hin) as Hlt.
  cbn [fst] in Hlt.
  assert (Hp0 : has_prefix pfx rk0 = true).
  { assert (Hin0 : In (rk0, rv0) (List.filter
              (fun e : bytes * bytes => has_prefix pfx (fst e)) kv))
      by (rewrite Ef; now left).
    now apply filter_In in Hin0 as [_ Hp0]. }
  assert (Hp : has_prefix pfx rk = true).
  { assert (Hin' : In (rk, rv) (List.filter
              (fun e : bytes * bytes => has_prefix pfx (fst e)) kv))
      by (rewrite Ef; now right).
    now apply filter_In in Hin' as [_ Hp]. }
  unfold bytes_ltb in *.
  rewrite (has_prefix_split _ _ Hp0), (has_prefix_split _ _ Hp) in Hlt.
  now rewrite bytes_compare_app in Hlt.
Qed.

Lemma be_value_height_segment (H : Z) (key : bytes) :
  be_value (firstn 8 (Uint64ToBigEndian H ++ key)) = uint64 H.
Proof.
  rewrite firstn_app, length_Uint64ToBigEndian.
  change (firstn (8 - 8) key) with (@nil byte).
  rewrite firstn_all2 by (rewrite length_Uint64ToBigEndian; lia).
  rewrite app_nil_r. apply be_value_Uint64ToBigEndian.
Qed.

(** ** The selector *)

Lemma In_rank_insert (a m : BTCValidatorWithMeta) (l : list BTCValidatorWithMeta) :
  In m (rank_insert a l) <-> m = a \/ In m l.
Proof.
  induction l as [| b l IH]; cbn [rank_insert In].
  - intuition congruence.
  - destruct (ranks_before a b); cbn [In]; rewrite ?IH; intuition congruence.
Qed.

Lemma In_rank (m : BTCValidatorWithMeta) (l : list BTCValidatorWithMeta) :
  In m (rank l) <-> In m l.
Proof.
  unfold rank. induction l as [| a l IH]; cbn [fold_right In]; [tauto |].
  rewrite In_rank_insert, IH. intuition congruence.
Qed.

Lemma FilterTopNBTCValidators_In (l : list BTCValidatorWithMeta) (n : Z)
  (m : BTCValidatorWithMeta) :
  In m (FilterTopNBTCValidators l n) -> In m l.
Proof.
  unfold FilterTopNBTCValidators. intros H. apply In_rank.
  rewrite <- (firstn_skipn (Z.to_nat (uint32 n)) (rank l)).
  apply in_or_app. now left.
Qed.

Lemma FilterTopNBTCValidators_length (l : list BTCValidatorWithMeta) (n : Z) :
  Z.of_nat (length (FilterTopNBTCValidators l n)) <= uint32 n.
Proof.
  unfold FilterTopNBTCValidators.
  pose proof (firstn_le_length (Z.to_nat (uint32 n)) (rank l)) as Hle.
  assert (0 <= uint32 n) by (unfold uint32; apply Z.mod_pos_bound; lia).
  lia.
Qed.

(** ** The registry *)

Lemma GetBTCValidator_in_known (reg : list (bytes * BTCValidator)) (pk : bytes) :
  In pk (map fst reg) -> exists v, GetBTCValidator_in reg pk = Some v.
Proof.
  induction reg as [| [k v] reg IH]; cbn [map fst In GetBTCValidator_in];
    [tauto |].
  intros [-> | Hin].
  - rewrite bytes_eqb_refl. eauto.
  - destruct (bytes_eqb k pk); eauto.
Qed.

(** ** Hexadecimal keys of the table *)

Lemma hextable_inj (m n : Z) :
  0 <= m < 16 -> 0 <= n < 16 -> hextable m = hextable n -> m = n.
Proof.
  intros Hm Hn.
  assert (Hi : exists i, (i < 16)%nat /\ m = Z.of_nat i)
    by (exists (Z.to_nat m); lia).
  assert (Hj : exists j, (j < 16)%nat /\ n = Z.of_nat j)
    by (exists (Z.to_nat n); lia).
  destruct Hi as (i & Hi & ->). destruct Hj as (j & Hj & ->). clear Hm Hn.
  do 16 (destruct i as [| i];
         [ do 16 (destruct j as [| j];
                  [ intros E; first [reflexivity | cbv in E; discriminate E] |]);
           lia |]).
  lia.
Qed.

Lemma byte_nibbles (x : Z) :
  0 <= x < 256 ->
  0 <= Z.shiftr x 4 < 16 /\ 0 <= Z.land x 15 < 16
  /\ x = 16 * Z.shiftr x 4 + Z.land x 15.
Proof.
  intros Hx. rewrite Z.shiftr_div_pow2 by lia.
  change 15 with (Z.ones 4). rewrite Z.land_ones by lia.
  change (2 ^ 4) with 16.
  pose proof (Z.div_mod x 16 ltac:(lia)).
  pose proof (Z.mod_pos_bound x 16 ltac:(lia)).
  assert (0 <= x / 16 < 16)
    by (split; [apply Z.div_pos; lia | apply Z.div_lt_upper_bound; lia]).
  lia.
Qed.

Lemma EncodeToString_inj (a b : bytes) :
  EncodeToString a = EncodeToString b -> a = b.
Proof.
  revert b. induction a as [| x a IH]; intros [| y b] E;
    cbn [EncodeToString] in E; try discriminate E; [reflexivity |].
  injection E as Ehi Elo Erest.
  destruct (byte_nibbles _ (Z_of_byte_range x)) as (Hxh & Hxl & Hx).
  destruct (byte_nibbles _ (Z_of_byte_range y)) as (Hyh & Hyl & Hy).
  apply hextable_inj in Ehi; [| assumption | assumption].
  apply hextable_inj in Elo; [| assumption | assumption].
  f_equal; [| now apply IH].
  apply Z_of_byte_inj. lia.
Qed.

(** ** What a stored value decodes to *)

Lemma Uint64_Ok (b : bytes) (p : Z) :
  Uint64 b = Ok p -> (8 <= length b)%nat /\ p = be_value (firstn 8 b).
Proof.
  intros Hp.
  assert (Hlen : (8 <= length b)%nat).
  { destruct b as [| b0 [| b1 [| b2 [| b3 [| b4 [| b5 [| b6 [| b7 b]]]]]]]];
      try discriminate Hp.
    cbn [length]. lia. }
  split; [exact Hlen |].
  rewrite (Uint64_be_value b Hlen) in Hp. now injection Hp as <-.
Qed.

Lemma BigEndianToUint64_stored_power (value : bytes) (p : Z) :
  BigEndianToUint64 value = Ok p -> p = stored_power value.
Proof.
  destruct value as [| b value]; cbn [BigEndianToUint64 stored_power].
  - now intros [= <-].
  - intros Hp. now apply Uint64_Ok in Hp as [_ Hp].
Qed.

Lemma stored_power_encode (p : Z) : stored_power (Uint64ToBigEndian p) = uint64 p.
Proof.
  change (stored_power (Uint64ToBigEndian p))
    with (be_value (firstn 8 (Uint64ToBigEndian p))).
  rewrite firstn_all2 by (rewrite length_Uint64ToBigEndian; lia).
  apply be_value_Uint64ToBigEndian.
Qed.

(** ** The voting power store *)

Section KeeperFacts.

Variable VotingPowerKey : bytes.
Variable BIP340PubKeyLen : nat.
Variable ParsePubKey : bytes -> bool.

Local Abbreviation vpStore := (votingPowerStore VotingPowerKey).
Local Abbreviation entries kv height := (prefix_Iterator (vpStore height) kv).
Local Abbreviation tally :=
  (RecordVotingPowerTable VotingPowerKey BIP340PubKeyLen ParsePubKey).

Lemma votingPowerStore_uint64 (height : Z) : vpStore (uint64 height) = vpStore height.
Proof.
  unfold votingPowerStore, Uint64ToBigEndian. now rewrite uint64_idem.
Qed.

(** Two heights that differ as 64-bit integers have disjoint partitions. *)
Lemma votingPowerStore_disjoint (h h' : Z) (key : bytes) :
  uint64 h <> uint64 h' -> has_prefix (vpStore h') (vpStore h ++ key) = false.
Proof.
  intros Hne. destruct (has_prefix _ _) eqn:E; [| reflexivity].
  exfalso. apply Hne. unfold votingPowerStore in E.
  rewrite <- app_assoc, has_prefix_app_l in E.
  apply has_prefix_same_length in E; [| reflexivity].
  symmetry. now apply Uint64ToBigEndian_inj.
Qed.

Lemma HasVotingPowerTable_false (kv : KVStore) (height : Z) :
  HasVotingPowerTable VotingPowerKey kv height = false <-> entries kv height = [].
Proof.
  unfold HasVotingPowerTable. destruct (entries kv height); split; congruence.
Qed.

Lemma HasVotingPowerTable_true (kv : KVStore) (height : Z) :
  HasVotingPowerTable VotingPowerKey kv height = true <->
  exists key value, In (vpStore height ++ key, value) kv.
Proof.
  unfold HasVotingPowerTable. split.
  - destruct (entries kv height) as [| [k v] l] eqn:E; [discriminate |].
    intros _. exists k, v. apply In_prefix_Iterator. rewrite E. now left.
  - intros (k & v & Hin). apply In_prefix_Iterator in Hin.
    destruct (entries kv height); [destruct Hin | reflexivity].
Qed.

Lemma SetVotingPower_Ok (kv kv' : KVStore) (valBTCPK : bytes) (height power : Z) :
  SetVotingPower VotingPowerKey kv valBTCPK height power = Ok kv' ->
  kv' = store_insert kv (vpStore height ++ valBTCPK) (Uint64ToBigEndian power).
Proof.
  unfold SetVotingPower, prefix_Set, store_Set.
  destruct (AssertValidKey valBTCPK); [| discriminate].
  destruct (AssertValidKey (vpStore height ++ valBTCPK)); [| discriminate].
  now intros [= <-].
Qed.

Lemma SetVotingPower_frame (kv kv' : KVStore) (valBTCPK : bytes)
  (height power h' : Z) :
  SetVotingPower VotingPowerKey kv valBTCPK height power = Ok kv' ->
  uint64 h' <> uint64 height ->
  entries kv' h' = entries kv h'.
Proof.
  intros Hset Hne. apply SetVotingPower_Ok in Hset. subst kv'.
  apply prefix_Iterator_insert_other, votingPowerStore_disjoint. congruence.
Qed.

Lemma SetVotingPower_sorted (kv kv' : KVStore) (valBTCPK : bytes)
  (height power : Z) :
  SetVotingPower VotingPowerKey kv valBTCPK height power = Ok kv' ->
  store_sorted kv = true -> store_sorted kv' = true.
Proof.
  intros Hset Hs. apply SetVotingPower_Ok in Hset. subst kv'.
  now apply store_sorted_insert.
Qed.

Lemma setVotingPowers_frame (l : list BTCValidatorWithMeta) (kv kv' : KVStore)
  (height h' : Z) :
  setVotingPowers VotingPowerKey kv height l = Ok kv' ->
  uint64 h' <> uint64 height ->
  entries kv' h' = entries kv h'.
Proof.
  revert kv. induction l as [| m l IH]; intros kv Hrun Hne;
    cbn [setVotingPowers] in Hrun.
  - now injection Hrun as <-.
  - destruct (SetVotingPower _ kv _ _ _) as [kv1 |] eqn:E; [| discriminate Hrun].
    cbn in Hrun. rewrite (IH _ Hrun Hne).
    eapply SetVotingPower_frame; eassumption.
Qed.

Lemma setVotingPowers_sorted (l : list BTCValidatorWithMeta) (kv kv' : KVStore)
  (height : Z) :
  setVotingPowers VotingPowerKey kv height l = Ok kv' ->
  store_sorted kv = true -> store_sorted kv' = true.
Proof.
  revert kv. induction l as [| m l IH]; intros kv Hrun Hs;
    cbn [setVotingPowers] in Hrun.
  - now injection Hrun as <-.
  - destruct (SetVotingPower _ kv _ _ _) as [kv1 |] eqn:E; [| discriminate Hrun].
    cbn in Hrun. apply (IH _ Hrun). eapply SetVotingPower_sorted; eassumption.
Qed.

(** What the writes of the tally leave under the height they write to. *)
Lemma setVotingPowers_entries (l : list BTCValidatorWithMeta) (kv kv' : KVStore)
  (height : Z) (k v : bytes) :
  setVotingPowers VotingPowerKey kv height l = Ok kv' ->
  In (k, v) (entries kv' height) ->
  In (k, v) (entries kv height)
  \/ exists m, In m l /\ k = BtcPk m /\ v = Uint64ToBigEndian (VotingPower m).
Proof.
  revert kv. induction l as [| m l IH]; intros kv Hrun Hin;
    cbn [setVotingPowers] in Hrun.
  - injection Hrun as <-. now left.
  - destruct (SetVotingPower _ kv _ _ _) as [kv1 |] eqn:E; [| discriminate Hrun].
    cbn in Hrun. destruct (IH _ Hrun Hin) as [Hold | (m' & Hm' & Hk & Hv)].
    + apply SetVotingPower_Ok in E. subst kv1.
      apply In_prefix_Iterator_insert in Hold as [[-> ->] | Hold]; [| now left].
      right. exists m. unfold MustMarshal. repeat split. now left.
    + right. exists m'. repeat split; auto. now right.
Qed.

Lemma setVotingPowers_length (l : list BTCValidatorWithMeta) (kv kv' : KVStore)
  (height : Z) :
  setVotingPowers VotingPowerKey kv height l = Ok kv' ->
  (length (entries kv' height) <= length (entries kv height) + length l)%nat.
Proof.
  revert kv. induction l as [| m l IH]; intros kv Hrun;
    cbn [setVotingPowers] in Hrun.
  - injection Hrun as <-. cbn [length]. lia.
  - destruct (SetVotingPower _ kv _ _ _) as [kv1 |] eqn:E; [| discriminate Hrun].
    cbn in Hrun. apply IH in Hrun. apply SetVotingPower_Ok in E. subst kv1.
    pose proof (prefix_Iterator_insert_length (vpStore height) kv
                  (vpStore height ++ MustMarshal (BtcPk m))
                  (Uint64ToBigEndian (VotingPower m))).
    cbn [length]. lia.
Qed.

(** A key the writes do not name keeps its entry. *)
Lemma setVotingPowers_Get_other (l : list BTCValidatorWithMeta)
  (kv kv' : KVStore) (height : Z) (key : bytes) :
  setVotingPowers VotingPowerKey kv height l = Ok kv' ->
  ~ In key (map BtcPk l) ->
  prefix_Get (vpStore height) kv' key = prefix_Get (vpStore height) kv key.
Proof.
  revert kv. induction l as [| m l IH]; intros kv Hrun Hnot;
    cbn [setVotingPowers] in Hrun.
  - now injection Hrun as <-.
  - destruct (SetVotingPower _ kv _ _ _) as [kv1 |] eqn:E; [| discriminate Hrun].
    cbn in Hrun. cbn [map In] in Hnot.
    rewrite (IH _ Hrun) by (intros Hin; apply Hnot; now right).
    apply SetVotingPower_Ok in E. subst kv1. unfold prefix_Get.
    apply store_get_insert_ne. unfold MustMarshal. intros Heq.
    apply app_inv_head in Heq. apply Hnot. now left.
Qed.

(** ** The loops of the tally *)

Lemma NewBIP340PubKey_Some (data pk : bytes) :
  NewBIP340PubKey BIP340PubKeyLen ParsePubKey data = Some pk -> pk = data.
Proof.
  unfold NewBIP340PubKey. destruct (_ && _); congruence.
Qed.

Lemma sumVotingPower_range (env : Env) (valBTCPK : bytes) (T w Q : Z)
  (iter : list bytes) (acc p : Z) :
  0 <= acc < 2 ^ 64 ->
  sumVotingPower BIP340PubKeyLen ParsePubKey env valBTCPK T w Q iter acc = Ok p ->
  0 <= p < 2 ^ 64.
Proof.
  revert acc. induction iter as [| key iter IH]; intros acc Hacc Hsum;
    cbn [sumVotingPower] in Hsum.
  - now injection Hsum as <-.
  - destruct (NewBIP340PubKey _ _ key) as [delBTCPK |]; [| discriminate Hsum].
    destruct (getBTCDelegatorDelegations env valBTCPK delBTCPK) as [btcDels |];
      [| discriminate Hsum].
    eapply IH; [| exact Hsum]. apply uint64_range.
Qed.

Lemma collectActive_candidates (env : Env) (T w Q : Z)
  (iter : list (bytes * BTCValidator)) (acc out : list BTCValidatorWithMeta) :
  collectActive BIP340PubKeyLen ParsePubKey env T w Q iter acc = Ok out ->
  Forall (candidate env) acc -> Forall (candidate env) out.
Proof.
  revert acc. induction iter as [| [key val] iter IH]; intros acc Hrun Hacc;
    cbn [collectActive] in Hrun.
  - now injection Hrun as <-.
  - destruct (NewBIP340PubKey _ _ key) as [valBTCPK |] eqn:Epk;
      [| discriminate Hrun].
    apply NewBIP340PubKey_Some in Epk. subst valBTCPK.
    destruct (GetBTCValidator env key) as [btcVal |] eqn:Eval;
      [| discriminate Hrun].
    destruct (IsSlashed btcVal) eqn:Eslashed; [now apply (IH acc) |].
    destruct (sumVotingPower _ _ env key T w Q _ 0) as [valPower |] eqn:Esum;
      [| discriminate Hrun].
    cbn in Hrun. destruct (0 <? valPower) eqn:Epos; [| now apply (IH acc)].
    apply (IH _ Hrun). apply Forall_app. split; [exact Hacc |].
    constructor; [| constructor]. split; cbn [VotingPower BtcPk].
    + apply Z.ltb_lt in Epos. apply sumVotingPower_range in Esum; lia.
    + eauto.
Qed.

(** When no validator that is not slashed scores, the loop adds nothing. *)
Lemma collectActive_idle (env : Env) (T w Q : Z)
  (iter : list (bytes * BTCValidator)) (acc : list BTCValidatorWithMeta) :
  (forall pk, In pk (map fst iter) ->
     NewBIP340PubKey BIP340PubKeyLen ParsePubKey pk <> None
     /\ is_Some (GetBTCValidator env pk)
     /\ forall v, GetBTCValidator env pk = Some v -> IsSlashed v = false ->
          sumVotingPower BIP340PubKeyLen ParsePubKey env pk T w Q
            (btcDelegatorStore env pk) 0 = Ok 0) ->
  collectActive BIP340PubKeyLen ParsePubKey env T w Q iter acc = Ok acc.
Proof.
  induction iter as [| [key val] iter IH]; intros Hidle; cbn [collectActive];
    [reflexivity |].
  destruct (Hidle key) as (Hpk & [btcVal Hval] & Hsum); [now left |].
  destruct (NewBIP340PubKey _ _ key) as [valBTCPK |] eqn:Epk; [| congruence].
  apply NewBIP340PubKey_Some in Epk. subst valBTCPK.
  rewrite Hval.
  assert (Hrest : collectActive BIP340PubKeyLen ParsePubKey env T w Q iter acc
                  = Ok acc).
  { apply IH. intros pk Hin. apply Hidle. now right. }
  destruct (IsSlashed btcVal) eqn:Eslashed; [exact Hrest |].
  rewrite (Hsum btcVal Hval Eslashed). cbn. exact Hrest.
Qed.

(** The writes of a tally that returns: a list of candidates no longer than
    the cap, written at the block height. *)
Lemma RecordVotingPowerTable_writes (env : Env) (kv kv' : KVStore) :
  tally env kv = Ok kv' ->
  exists active,
    setVotingPowers VotingPowerKey kv (uint64 (BlockHeight env)) active = Ok kv'
    /\ Forall (candidate env) active
    /\ Z.of_nat (length active) <= uint32 (MaxActiveBtcValidators (GetParams env)).
Proof.
  assert (Hcap : 0 <= uint32 (MaxActiveBtcValidators (GetParams env)))
    by (unfold uint32; apply Z.mod_pos_bound; lia).
  unfold RecordVotingPowerTable. intros Hrun.
  destruct (GetCurrentBTCHeight env) as [btcTipHeight |].
  - destruct (collectActive _ _ env btcTipHeight _ _ _ []) as [cands |] eqn:Ec;
      [| discriminate Hrun].
    cbn in Hrun. apply collectActive_candidates in Ec; [| constructor].
    destruct (Nat.eqb (length cands) 0).
    + exists []. cbn [setVotingPowers length]. repeat split; auto.
    + eexists. split; [exact Hrun |]. split.
      * apply Forall_forall. intros m Hm.
        apply FilterTopNBTCValidators_In in Hm.
        rewrite Forall_forall in Ec. now apply Ec.
      * apply FilterTopNBTCValidators_length.
  - exists []. cbn [setVotingPowers length]. repeat split; auto.
Qed.

(** ** Sortedness and height segments are kept by the tally *)

Lemma height_keyed_iff (kv : KVStore) :
  height_keyed VotingPowerKey kv = true <->
  forall k v, In (k, v) (prefix_Iterator VotingPowerKey kv) -> (8 <= length k)%nat.
Proof.
  unfold height_keyed. rewrite forallb_forall. split.
  - intros Hall k v Hin. apply Hall in Hin. cbn [fst] in Hin.
    now apply Nat.leb_le.
  - intros Hall [k v] Hin. cbn [fst]. apply Nat.leb_le. now apply (Hall k v).
Qed.

Lemma SetVotingPower_height_keyed (kv kv' : KVStore) (valBTCPK : bytes)
  (height power : Z) :
  SetVotingPower VotingPowerKey kv valBTCPK height power = Ok kv' ->
  height_keyed VotingPowerKey kv = true ->
  height_keyed VotingPowerKey kv' = true.
Proof.
  intros Hset Hkeyed. apply SetVotingPower_Ok in Hset. subst kv'.
  rewrite height_keyed_iff in Hkeyed |- *. intros k v Hin.
  unfold votingPowerStore in Hin. rewrite <- app_assoc in Hin.
  apply In_prefix_Iterator_insert in Hin as [[-> _] | Hin].
  - rewrite length_app, length_Uint64ToBigEndian. lia.
  - now apply (Hkeyed k v).
Qed.

Lemma setVotingPowers_height_keyed (l : list BTCValidatorWithMeta)
  (kv kv' : KVStore) (height : Z) :
  setVotingPowers VotingPowerKey kv height l = Ok kv' ->
  height_keyed VotingPowerKey kv = true ->
  height_keyed VotingPowerKey kv' = true.
Proof.
  revert kv. induction l as [| m l IH]; intros kv Hrun Hkeyed;
    cbn [setVotingPowers] in Hrun.
  - now injection Hrun as <-.
  - destruct (SetVotingPower _ kv _ _ _) as [kv1 |] eqn:E; [| discriminate Hrun].
    cbn in Hrun. apply (IH _ Hrun).
    eapply SetVotingPower_height_keyed; eassumption.
Qed.

(** The tally keeps the store sorted and its table keys led by a height
    segment: the two assumptions of the activation query hold of every
    store the tally builds from the empty one. *)
Lemma RecordVotingPowerTable_well_formed (env : Env) (kv kv' : KVStore) :
  tally env kv = Ok kv' ->
  store_sorted kv = true -> height_keyed VotingPowerKey kv = true ->
  store_sorted kv' = true /\ height_keyed VotingPowerKey kv' = true.
Proof.
  intros Hrun Hsorted Hkeyed.
  apply RecordVotingPowerTable_writes in Hrun as (active & Hset & _).
  split.
  - eapply setVotingPowers_sorted; eassumption.
  - eapply setVotingPowers_height_keyed; eassumption.
Qed.

(** ** Reading a voting power *)

Lemma GetVotingPower_absent (env : Env) (kv : KVStore) (key : bytes) (height : Z) :
  prefix_Get (vpStore height) kv key = None ->
  GetVotingPower VotingPowerKey env kv key height = Ok 0.
Proof.
  intros Hnone. unfold GetVotingPower. rewrite Hnone.
  destruct (negb (HasBTCValidator env key)); reflexivity.
Qed.

Lemma GetVotingPower_stored (env : Env) (kv : KVStore) (key value : bytes)
  (height : Z) :
  HasBTCValidator env key = true ->
  prefix_Get (vpStore height) kv key = Some value ->
  value <> [] ->
  GetVotingPower VotingPowerKey env kv key height = BigEndianToUint64 value.
Proof.
  intros Hknown Hget Hne. unfold GetVotingPower. rewrite Hknown, Hget.
  cbn [negb]. destruct value; [congruence | reflexivity].
Qed.

(** A tally never writes under the key of a validator that is slashed when
    it runs. *)
Lemma RecordVotingPowerTable_skips_slashed (env : Env) (kv kv' : KVStore)
  (pk : bytes) (v : BTCValidator) :
  GetBTCValidator env pk = Some v -> IsSlashed v = true ->
  tally env kv = Ok kv' ->
  prefix_Get (vpStore (BlockHeight env)) kv' pk
  = prefix_Get (vpStore (BlockHeight env)) kv pk.
Proof.
  intros Hval Hslashed Hrun.
  apply RecordVotingPowerTable_writes in Hrun as (active & Hset & Hcand & _).
  rewrite <- (votingPowerStore_uint64 (BlockHeight env)).
  apply (setVotingPowers_Get_other active); [exact Hset |].
  intros Hin. apply in_map_iff in Hin as (m & Hpk & Hm).
  rewrite Forall_forall in Hcand.
  destruct (Hcand m Hm) as (_ & v' & Hval' & Hfree).
  rewrite Hpk in Hval'. congruence.
Qed.

(** C10: reading a voting power right after writing it gives back the value
    written, for every height, every 64-bit power (zero included) and every
    key that the registry knows and the store accepts. *)
Theorem SetVotingPower_GetVotingPower (env : Env) (kv : KVStore) (pk : bytes)
  (h p : Z) :
  HasBTCValidator env pk = true ->
  AssertValidKey pk = true ->
  AssertValidKey (votingPowerStore VotingPowerKey h ++ pk) = true ->
  0 <= p < 2 ^ 64 ->
  exists kv',
    SetVotingPower VotingPowerKey kv pk h p = Ok kv'
    /\ GetVotingPower VotingPowerKey env kv' pk h = Ok p.
Proof.
  intros Hknown Hkey Hfull Hp.
  unfold SetVotingPower, prefix_Set, store_Set. rewrite Hkey, Hfull.
  eexists. split; [reflexivity |].
  rewrite (GetVotingPower_stored env _ pk (Uint64ToBigEndian p)).
  - rewrite <- (app_nil_r (Uint64ToBigEndian p)), BigEndianToUint64_encode.
    now rewrite uint64_small.
  - exact Hknown.
  - unfold prefix_Get. apply store_get_insert_eq.
  - discriminate.
Qed.

(** C8: the power read for a key unknown to the registry is zero whatever
    the store holds, and the power read for a known key without an entry at
    the height is zero as well; both calls return, with the same value. *)
Theorem GetVotingPower_unknown_or_absent (env : Env) (kv : KVStore)
  (key : bytes) (height : Z) :
  (HasBTCValidator env key = false ->
     GetVotingPower VotingPowerKey env kv key height = Ok 0)
  /\ (HasBTCValidator env key = true ->
      prefix_Get (votingPowerStore VotingPowerKey height) kv key = None ->
      GetVotingPower VotingPowerKey env kv key height = Ok 0).
Proof.
  split.
  - intros Hunknown. unfold GetVotingPower. now rewrite Hunknown.
  - intros _ Hnone. now apply GetVotingPower_absent.
Qed.

(** C9: a tally at one height leaves every other height as it was: the
    entries under it, and so the answers of [HasVotingPowerTable] and
    [GetVotingPowerTable] for it. *)
Theorem RecordVotingPowerTable_frame (env : Env) (kv kv' : KVStore) (h' : Z) :
  tally env kv = Ok kv' ->
  uint64 h' <> uint64 (BlockHeight env) ->
  prefix_Iterator (votingPowerStore VotingPowerKey h') kv'
  = prefix_Iterator (votingPowerStore VotingPowerKey h') kv
  /\ HasVotingPowerTable VotingPowerKey kv' h'
     = HasVotingPowerTable VotingPowerKey kv h'
  /\ GetVotingPowerTable VotingPowerKey BIP340PubKeyLen ParsePubKey kv' h'
     = GetVotingPowerTable VotingPowerKey BIP340PubKeyLen ParsePubKey kv h'.
Proof.
  intros Hrun Hne.
  apply RecordVotingPowerTable_writes in Hrun as (active & Hset & _).
  assert (E : entries kv' h' = entries kv h').
  { apply (setVotingPowers_frame active _ _ (uint64 (BlockHeight env)));
      [exact Hset | now rewrite uint64_idem]. }
  unfold HasVotingPowerTable, GetVotingPowerTable. now rewrite E.
Qed.

(** C5: when the tip-height lookup fails the tally returns, without a panic
    and with the store as it was, so a height without a snapshot stays
    without one and the tally of the next height runs as if this one had
    not been attempted. *)
Theorem RecordVotingPowerTable_tip_lookup_fails (env : Env) (kv : KVStore) :
  GetCurrentBTCHeight env = None ->
  exists kv',
    tally env kv = Ok kv'
    /\ kv' = kv
    /\ (HasVotingPowerTable VotingPowerKey kv (BlockHeight env) = false ->
        HasVotingPowerTable VotingPowerKey kv' (BlockHeight env) = false)
    /\ forall env', BlockHeight env' = BlockHeight env + 1 ->
         tally env' kv' = tally env' kv.
Proof.
  intros Hfail. exists kv. unfold RecordVotingPowerTable at 1. rewrite Hfail.
  repeat split; auto.
Qed.

(** C4: when every validator that is not slashed has a zero score sum, the
    tally returns with the store as it was: it writes no entry for the
    height, which stays without a snapshot. *)
Theorem RecordVotingPowerTable_no_candidates (env : Env) (kv : KVStore) :
  (forall T pk, GetCurrentBTCHeight env = Some T ->
     In pk (map fst (btcValidatorStore env)) ->
     NewBIP340PubKey BIP340PubKeyLen ParsePubKey pk <> None
     /\ forall v, GetBTCValidator env pk = Some v -> IsSlashed v = false ->
          sumVotingPower BIP340PubKeyLen ParsePubKey env pk T
            (CheckpointFinalizationTimeout env) (CovenantQuorum (GetParams env))
            (btcDelegatorStore env pk) 0 = Ok 0) ->
  HasVotingPowerTable VotingPowerKey kv (BlockHeight env) = false ->
  exists kv',
    tally env kv = Ok kv'
    /\ kv' = kv
    /\ HasVotingPowerTable VotingPowerKey kv' (BlockHeight env) = false.
Proof.
  intros Hidle Hfresh. exists kv. split; [| split; [reflexivity | exact Hfresh]].
  unfold RecordVotingPowerTable.
  destruct (GetCurrentBTCHeight env) as [T |] eqn:Etip; [| reflexivity].
  rewrite collectActive_idle; [reflexivity |].
  intros pk Hin. destruct (Hidle T pk eq_refl Hin) as [Hpk Hsum].
  split; [exact Hpk |]. split; [| exact Hsum].
  apply GetBTCValidator_in_known in Hin as [v Hv]. exists v. exact Hv.
Qed.

(** C7: a validator that is slashed when the tally runs gets no entry from
    it, whatever its score: its slot at the height is left as it was, and
    when the height had no snapshot before, the snapshot written has no
    entry under its key and its power at the height reads zero. *)
Theorem RecordVotingPowerTable_excludes_slashed (env : Env) (kv kv' : KVStore)
  (pk : bytes) (v : BTCValidator) :
  GetBTCValidator env pk = Some v ->
  IsSlashed v = true ->
  tally env kv = Ok kv' ->
  prefix_Get (votingPowerStore VotingPowerKey (BlockHeight env)) kv' pk
  = prefix_Get (votingPowerStore VotingPowerKey (BlockHeight env)) kv pk
  /\ (HasVotingPowerTable VotingPowerKey kv (BlockHeight env) = false ->
      ~ In pk (map fst (prefix_Iterator
                          (votingPowerStore VotingPowerKey (BlockHeight env)) kv'))
      /\ forall env',
           GetVotingPower VotingPowerKey env' kv' pk (BlockHeight env) = Ok 0).
Proof.
  intros Hval Hslashed Hrun.
  pose proof (RecordVotingPowerTable_skips_slashed _ _ _ _ _ Hval Hslashed Hrun)
    as Hsame.
  split; [exact Hsame |]. intros Hfresh.
  apply HasVotingPowerTable_false in Hfresh.
  assert (Hnone : prefix_Get (vpStore (BlockHeight env)) kv' pk = None).
  { rewrite Hsame. apply prefix_Get_None. rewrite Hfresh. intros []. }
  split.
  - now apply prefix_Get_None.
  - intros env'. now apply GetVotingPower_absent.
Qed.

(** The snapshot a tally writes at a height that had none. *)
Lemma RecordVotingPowerTable_snapshot (env : Env) (kv kv' : KVStore) :
  prefix_Iterator (vpStore (BlockHeight env)) kv = [] ->
  tally env kv = Ok kv' ->
  snapshot_within (uint32 (MaxActiveBtcValidators (GetParams env)))
    (prefix_Iterator (vpStore (BlockHeight env)) kv').
Proof.
  intros Hfresh Hrun.
  apply RecordVotingPowerTable_writes in Hrun as (active & Hset & Hcand & Hcap).
  rewrite <- (votingPowerStore_uint64 (BlockHeight env)) in Hfresh |- *.
  split.
  - apply Forall_forall. intros [k value] Hin.
    destruct (setVotingPowers_entries active _ _ _ _ _ Hset Hin)
      as [Hold | (m & Hm & _ & ->)].
    + rewrite Hfresh in Hold. destruct Hold.
    + rewrite Forall_forall in Hcand. destruct (Hcand m Hm) as [Hpower _].
      exists (VotingPower m). cbn [snd]. split; [| lia].
      rewrite <- (app_nil_r (Uint64ToBigEndian _)), BigEndianToUint64_encode.
      now rewrite uint64_small by lia.
  - pose proof (setVotingPowers_length active _ _ _ Hset) as Hlen.
    rewrite Hfresh in Hlen. cbn [length] in Hlen. lia.
Qed.

(** C3: after a tally at a height not tallied before, every height that
    has a snapshot is in one of two cases.  The height of the tally: every
    entry under it has a positive power and there are at most N of them, N
    being the cap configured at this tally.  Any other height: its entries
    are the entries it had before the tally, so they are still positive and
    still within whatever cap they were within. *)
Theorem RecordVotingPowerTable_snapshots_within_cap (env : Env)
  (kv kv' : KVStore) :
  HasVotingPowerTable VotingPowerKey kv (BlockHeight env) = false ->
  tally env kv = Ok kv' ->
  forall H,
    HasVotingPowerTable VotingPowerKey kv' H = true ->
    (uint64 H = uint64 (BlockHeight env) ->
       snapshot_within (uint32 (MaxActiveBtcValidators (GetParams env)))
         (prefix_Iterator (votingPowerStore VotingPowerKey H) kv'))
    /\ (uint64 H <> uint64 (BlockHeight env) ->
        prefix_Iterator (votingPowerStore VotingPowerKey H) kv'
        = prefix_Iterator (votingPowerStore VotingPowerKey H) kv
        /\ forall cap,
             snapshot_within cap
               (prefix_Iterator (votingPowerStore VotingPowerKey H) kv) ->
             snapshot_within cap
               (prefix_Iterator (votingPowerStore VotingPowerKey H) kv')).
Proof.
  intros Hfresh Hrun H _.
  apply HasVotingPowerTable_false in Hfresh. split.
  - intros Heq.
    rewrite <- (votingPowerStore_uint64 H), Heq, votingPowerStore_uint64.
    apply (RecordVotingPowerTable_snapshot env kv kv'); assumption.
  - intros Hne.
    apply RecordVotingPowerTable_writes in Hrun as (active & Hset & _).
    assert (E : entries kv' H = entries kv H).
    { apply (setVotingPowers_frame active kv kv' (uint64 (BlockHeight env)) H);
        [exact Hset | now rewrite uint64_idem]. }
    split; [exact E |]. intros cap Hcap. now rewrite E.
Qed.

(** C2, as amended: the power read for a key without an entry in the
    snapshot of the height is zero, slashed or not; a key that is slashed
    when the tally of a height not tallied before runs gets no entry from
    it and reads zero at that height; and a key the registry knows reads
    the power stored for it at the height, whether it has been slashed
    since or not. *)
Theorem GetVotingPower_zero_cases (env : Env) (kv : KVStore) (key : bytes)
  (H : Z) :
  (prefix_Get (votingPowerStore VotingPowerKey H) kv key = None ->
     GetVotingPower VotingPowerKey env kv key H = Ok 0)
  /\ (forall env0 kv0 v,
        GetBTCValidator env0 key = Some v -> IsSlashed v = true ->
        HasVotingPowerTable VotingPowerKey kv0 (BlockHeight env0) = false ->
        tally env0 kv0 = Ok kv ->
        GetVotingPower VotingPowerKey env kv key (BlockHeight env0) = Ok 0)
  /\ (forall value,
        HasBTCValidator env key = true ->
        prefix_Get (votingPowerStore VotingPowerKey H) kv key = Some value ->
        value <> [] ->
        GetVotingPower VotingPowerKey env kv key H = BigEndianToUint64 value).
Proof.
  split; [apply GetVotingPower_absent |]. split.
  - intros env0 kv0 v Hval Hslashed Hfresh Hrun.
    apply GetVotingPower_absent.
    rewrite (RecordVotingPowerTable_skips_slashed _ _ _ _ _ Hval Hslashed Hrun).
    apply prefix_Get_None. apply HasVotingPowerTable_false in Hfresh.
    rewrite Hfresh. intros [].
  - intros value. apply GetVotingPower_stored.
Qed.

(** ** The table of one height *)

Local Abbreviation collect :=
  (collectValSet BIP340PubKeyLen ParsePubKey).

Lemma collectValSet_other (iter : list (bytes * bytes)) (m0 m : gmap string Z)
  (key : string) :
  collect iter m0 = Ok m ->
  (forall k, In k (map fst iter) -> EncodeToString k <> key) ->
  m !! key = m0 !! key.
Proof.
  revert m0. induction iter as [| [k v] iter IH]; intros m0 Hrun Hother;
    cbn [collectValSet] in Hrun.
  - now injection Hrun as <-.
  - destruct (NewBIP340PubKey _ _ k) as [pk |] eqn:Epk; [| discriminate Hrun].
    apply NewBIP340PubKey_Some in Epk. subst pk.
    destruct (BigEndianToUint64 v) as [p |]; [| discriminate Hrun].
    cbn in Hrun. rewrite (IH _ Hrun).
    + apply lookup_insert_ne. apply Hother. now left.
    + intros k' Hk'. apply Hother. now right.
Qed.

(** Every entry is in the table, under the hexadecimal form of its key and
    with its decoded power. *)
Lemma collectValSet_complete (iter : list (bytes * bytes)) (m0 m : gmap string Z)
  (k v : bytes) :
  collect iter m0 = Ok m ->
  NoDup (map fst iter) ->
  In (k, v) iter ->
  exists p, BigEndianToUint64 v = Ok p /\ m !! EncodeToString k = Some p.
Proof.
  revert m0. induction iter as [| [k' v'] iter IH]; intros m0 Hrun Hnd Hin;
    [destruct Hin |].
  cbn [collectValSet] in Hrun.
  destruct (NewBIP340PubKey _ _ k') as [pk |] eqn:Epk; [| discriminate Hrun].
  apply NewBIP340PubKey_Some in Epk. subst pk.
  destruct (BigEndianToUint64 v') as [p |] eqn:Ep; [| discriminate Hrun].
  cbn in Hrun. cbn [map fst] in Hnd. apply NoDup_cons_iff in Hnd as [Hfirst Hnd].
  destruct Hin as [[= -> ->] | Hin].
  - exists p. split; [exact Ep |].
    rewrite (collectValSet_other _ _ _ _ Hrun).
    + apply lookup_insert_eq.
    + intros k' Hk' E. apply EncodeToString_inj in E. now subst k'.
  - now apply (IH _ Hrun).
Qed.

(** Every key of the table comes from an entry, or was there before. *)
Lemma collectValSet_sound (iter : list (bytes * bytes)) (m0 m : gmap string Z)
  (key : string) (p : Z) :
  collect iter m0 = Ok m ->
  m !! key = Some p ->
  m0 !! key = Some p
  \/ exists k v, In (k, v) iter /\ key = EncodeToString k
                 /\ BigEndianToUint64 v = Ok p.
Proof.
  revert m0. induction iter as [| [k' v'] iter IH]; intros m0 Hrun Hkey;
    cbn [collectValSet] in Hrun.
  - injection Hrun as <-. now left.
  - destruct (NewBIP340PubKey _ _ k') as [pk |] eqn:Epk; [| discriminate Hrun].
    apply NewBIP340PubKey_Some in Epk. subst pk.
    destruct (BigEndianToUint64 v') as [p' |] eqn:Ep; [| discriminate Hrun].
    cbn in Hrun. destruct (IH _ Hrun Hkey) as [Hold | (k & v & Hin & -> & Hv)].
    + unfold MarshalHex in Hold.
      destruct (decide (EncodeToString k' = key)) as [<- | Hne].
      * rewrite lookup_insert_eq in Hold. injection Hold as ->.
        right. exists k', v'. repeat split; auto. now left.
      * rewrite lookup_insert_ne in Hold by exact Hne. now left.
    + right. exists k, v. repeat split; auto. now right.
Qed.

(** The loop returns when every key decodes and every value has 8 bytes. *)
Lemma collectValSet_returns (iter : list (bytes * bytes)) (m0 : gmap string Z) :
  (forall k v, In (k, v) iter ->
     NewBIP340PubKey BIP340PubKeyLen ParsePubKey k <> None /\ length v = 8%nat) ->
  exists m, collect iter m0 = Ok m.
Proof.
  revert m0. induction iter as [| [k v] iter IH]; intros m0 Hwf;
    cbn [collectValSet]; [eauto |].
  destruct (Hwf k v) as [Hpk Hlen]; [now left |].
  destruct (NewBIP340PubKey _ _ k) as [pk |]; [| congruence].
  replace (BigEndianToUint64 v) with (Ok (be_value (firstn 8 v))).
  - cbn. apply IH. intros k' v' Hin. apply Hwf. now right.
  - symmetry. destruct v as [| b v]; [discriminate Hlen |].
    apply Uint64_be_value. rewrite Hlen. lia.
Qed.

(** A table that was collected from at least one entry is not empty. *)
Lemma collectValSet_nonempty (iter : list (bytes * bytes)) (m0 m : gmap string Z) :
  collect iter m0 = Ok m -> iter <> [] \/ m0 <> ∅ -> m <> ∅.
Proof.
  revert m0. induction iter as [| [k v] iter IH]; intros m0 Hrun Hne;
    cbn [collectValSet] in Hrun.
  - injection Hrun as <-. destruct Hne as [Hne | Hne]; congruence.
  - destruct (NewBIP340PubKey _ _ k) as [pk |]; [| discriminate Hrun].
    destruct (BigEndianToUint64 v) as [p |]; [| discriminate Hrun].
    cbn in Hrun. apply (IH _ Hrun). right. apply insert_non_empty.
Qed.

(** C6: [GetVotingPowerTable] on a sorted store gives the nil map when the
    height has no entry.  When the height has entries, the map it returns
    is not empty; it holds every entry of the height under the hexadecimal
    form of its key, with the number its value denotes, so an entry written
    with power [p] is in the map with [p] itself (as a 64-bit number); and
    it holds nothing else.  It does return such a map when every key of the
    height decodes and every value has 8 bytes; and an empty map is never
    returned. *)
Theorem GetVotingPowerTable_full_or_nil (kv : KVStore) (H : Z) :
  store_sorted kv = true ->
  (HasVotingPowerTable VotingPowerKey kv H = false ->
     GetVotingPowerTable VotingPowerKey BIP340PubKeyLen ParsePubKey kv H = Ok None)
  /\ (HasVotingPowerTable VotingPowerKey kv H = true ->
      forall r,
        GetVotingPowerTable VotingPowerKey BIP340PubKeyLen ParsePubKey kv H = Ok r ->
        exists m : gmap string Z,
          r = Some m /\ m <> ∅
          /\ (forall k v,
                In (k, v) (prefix_Iterator (votingPowerStore VotingPowerKey H) kv) ->
                m !! MarshalHex k = Some (stored_power v))
          /\ (forall k p,
                In (k, Uint64ToBigEndian p)
                   (prefix_Iterator (votingPowerStore VotingPowerKey H) kv) ->
                m !! MarshalHex k = Some (uint64 p))
          /\ (forall key p, m !! key = Some p ->
                exists k v,
                  In (k, v) (prefix_Iterator (votingPowerStore VotingPowerKey H) kv)
                  /\ key = MarshalHex k /\ p = stored_power v))
  /\ (HasVotingPowerTable VotingPowerKey kv H = true ->
      (forall k v,
         In (k, v) (prefix_Iterator (votingPowerStore VotingPowerKey H) kv) ->
         NewBIP340PubKey BIP340PubKeyLen ParsePubKey k <> None
         /\ length v = 8%nat) ->
      exists m : gmap string Z,
        GetVotingPowerTable VotingPowerKey BIP340PubKeyLen ParsePubKey kv H
        = Ok (Some m))
  /\ GetVotingPowerTable VotingPowerKey BIP340PubKeyLen ParsePubKey kv H
     <> Ok (Some ∅).
Proof.
  intros Hsorted.
  pose proof (prefix_Iterator_NoDup (vpStore H) kv Hsorted) as Hnd.
  unfold GetVotingPowerTable, HasVotingPowerTable.
  destruct (entries kv H) as [| e iter] eqn:Eiter.
  - split; [reflexivity |]. repeat split; discriminate.
  - split; [discriminate |]. split; [| split].
    + intros _ r Hr.
      destruct (collect (e :: iter) ∅) as [m |] eqn:Ec; [| discriminate Hr].
      cbn in Hr. injection Hr as <-. exists m. split; [reflexivity |].
      assert (Hfull : forall k v, In (k, v) (e :: iter) ->
                m !! MarshalHex k = Some (stored_power v)).
      { intros k v Hin.
        destruct (collectValSet_complete _ _ _ _ _ Ec Hnd Hin) as (p & Hp & Hm).
        apply BigEndianToUint64_stored_power in Hp. now subst p. }
      split; [| split; [| split]].
      * apply (collectValSet_nonempty _ _ _ Ec). now left.
      * exact Hfull.
      * intros k p Hin. rewrite (Hfull _ _ Hin). f_equal.
        apply stored_power_encode.
      * intros key p Hkey.
        destruct (collectValSet_sound _ _ _ _ _ Ec Hkey)
          as [Hold | (k & v & Hin & Ek & Hp)].
        -- rewrite lookup_empty in Hold. discriminate Hold.
        -- exists k, v. repeat split; try assumption.
           now apply BigEndianToUint64_stored_power.
    + intros _ Hwf. destruct (collectValSet_returns (e :: iter) ∅ Hwf) as [m Hm].
      exists m. now rewrite Hm.
    + destruct (collect (e :: iter) ∅) as [m |] eqn:Ec; [| discriminate].
      cbn. intros [= ->].
      apply (collectValSet_nonempty _ _ _ Ec); [now left | reflexivity].
Qed.

(** ** Activation *)

Lemma height_keyed_In (kv : KVStore) (k v : bytes) :
  height_keyed VotingPowerKey kv = true ->
  In (k, v) (prefix_Iterator VotingPowerKey kv) -> (8 <= length k)%nat.
Proof.
  unfold height_keyed. rewrite forallb_forall. intros Hall Hin.
  apply Hall in Hin. cbn [fst] in Hin. now apply Nat.leb_le.
Qed.

(** An entry of a height is an entry of the whole table, its key led by
    the height segment. *)
Lemma entries_in_table (kv : KVStore) (H : Z) (key value : bytes) :
  In (vpStore H ++ key, value) kv <->
  In (Uint64ToBigEndian H ++ key, value) (prefix_Iterator VotingPowerKey kv).
Proof.
  rewrite In_prefix_Iterator. unfold votingPowerStore.
  now rewrite <- app_assoc.
Qed.

(** What the activation query answers when the table has a first key. *)
Lemma activation_first_key (kv : KVStore) (k0 v0 : bytes)
  (rest : list (bytes * bytes)) :
  store_sorted kv = true ->
  height_keyed VotingPowerKey kv = true ->
  prefix_Iterator VotingPowerKey kv = (k0, v0) :: rest ->
  let h0 := be_value (firstn 8 k0) in
  GetBTCStakingActivatedHeight VotingPowerKey kv = Ok (h0, None)
  /\ 0 <= h0 < 2 ^ 64
  /\ Uint64ToBigEndian h0 = firstn 8 k0
  /\ HasVotingPowerTable VotingPowerKey kv h0 = true
  /\ forall H, 0 <= H < 2 ^ 64 ->
       HasVotingPowerTable VotingPowerKey kv H = true -> h0 <= H.
Proof.
  intros Hsorted Hkeyed Hiter h0.
  assert (Hlen : (8 <= length k0)%nat).
  { apply (height_keyed_In kv k0 v0 Hkeyed). rewrite Hiter. now left. }
  assert (Hlen8 : length (firstn 8 k0) = 8%nat)
    by (rewrite length_firstn; lia).
  assert (Hseg : Uint64ToBigEndian h0 = firstn 8 k0)
    by now apply Uint64ToBigEndian_be_value.
  split; [| split; [| split; [exact Hseg | split]]].
  - unfold GetBTCStakingActivatedHeight. rewrite Hiter.
    replace (BigEndianToUint64 k0) with (Ok h0); [reflexivity |].
    symmetry. destruct k0 as [| b k0]; [simpl in Hlen; lia |].
    now apply Uint64_be_value.
  - pose proof (be_value_range (firstn 8 k0)) as Hr. rewrite Hlen8 in Hr.
    exact Hr.
  - apply HasVotingPowerTable_true. exists (skipn 8 k0), v0.
    apply entries_in_table. rewrite Hseg, firstn_skipn, Hiter. now left.
  - intros H HH Hhas. apply HasVotingPowerTable_true in Hhas as (key & value & Hin).
    apply entries_in_table in Hin. rewrite Hiter in Hin.
    rewrite <- (uint64_small H HH), <- (be_value_height_segment H key).
    destruct Hin as [E | Hin].
    { assert (Ek : k0 = Uint64ToBigEndian H ++ key) by congruence.
      unfold h0. rewrite Ek. apply Z.le_refl. }
    pose proof (prefix_Iterator_head_least _ _ _ _ _ Hsorted Hiter _ _ Hin) as Hlt.
    assert (Hc : bytes_compare (firstn 8 k0)
                   (firstn 8 (Uint64ToBigEndian H ++ key)) <> Gt).
    { apply bytes_compare_firstn. unfold bytes_ltb in Hlt.
      destruct (bytes_compare k0 _); congruence. }
    rewrite bytes_compare_be_value in Hc.
    + apply Z.compare_le_iff in Hc. exact Hc.
    + rewrite Hlen8, length_firstn, length_app, length_Uint64ToBigEndian. lia.
Qed.

(** C1: on a sorted store whose table keys carry their height segment,
    [IsBTCStakingActivated] holds exactly when some height has a snapshot;
    when no height has one, [GetBTCStakingActivatedHeight] gives the
    not-activated error; and when some height has one, it gives, without
    an error, the smallest such height, which is the number encoded by the
    8-byte height segment that leads the first key of the table. *)
Theorem GetBTCStakingActivatedHeight_least (kv : KVStore) :
  store_sorted kv = true ->
  height_keyed VotingPowerKey kv = true ->
  (IsBTCStakingActivated VotingPowerKey kv = true <->
     exists H, 0 <= H < 2 ^ 64 /\ HasVotingPowerTable VotingPowerKey kv H = true)
  /\ ((forall H, 0 <= H < 2 ^ 64 ->
         HasVotingPowerTable VotingPowerKey kv H = false) ->
      GetBTCStakingActivatedHeight VotingPowerKey kv
      = Ok (0, Some ErrBTCStakingNotActivated))
  /\ ((exists H, 0 <= H < 2 ^ 64
                 /\ HasVotingPowerTable VotingPowerKey kv H = true) ->
      exists h0,
        GetBTCStakingActivatedHeight VotingPowerKey kv = Ok (h0, None)
        /\ 0 <= h0 < 2 ^ 64
        /\ HasVotingPowerTable VotingPowerKey kv h0 = true
        /\ (forall H, 0 <= H < 2 ^ 64 ->
              HasVotingPowerTable VotingPowerKey kv H = true -> h0 <= H)
        /\ forall key value rest,
             prefix_Iterator VotingPowerKey kv = (key, value) :: rest ->
             firstn 8 key = Uint64ToBigEndian h0).
Proof.
  intros Hsorted Hkeyed.
  assert (Hactive : IsBTCStakingActivated VotingPowerKey kv = true <->
            exists H, 0 <= H < 2 ^ 64
                      /\ HasVotingPowerTable VotingPowerKey kv H = true).
  { unfold IsBTCStakingActivated. split.
    - destruct (prefix_Iterator VotingPowerKey kv) as [| [k0 v0] rest] eqn:Hiter;
        [discriminate |].
      intros _.
      destruct (activation_first_key kv k0 v0 rest Hsorted Hkeyed Hiter)
        as (_ & Hr & _ & Hhas & _).
      eauto.
    - intros (H & _ & Hhas).
      apply HasVotingPowerTable_true in Hhas as (key & value & Hin).
      apply entries_in_table in Hin.
      destruct (prefix_Iterator VotingPowerKey kv); [destruct Hin | reflexivity]. }
  split; [exact Hactive |]. split.
  - intros Hnone. unfold GetBTCStakingActivatedHeight.
    destruct (prefix_Iterator VotingPowerKey kv) as [| [k0 v0] rest] eqn:Hiter;
      [reflexivity |].
    destruct (activation_first_key kv k0 v0 rest Hsorted Hkeyed Hiter)
      as (_ & Hr & _ & Hhas & _).
    rewrite (Hnone _ Hr) in Hhas. discriminate Hhas.
  - intros Hsome. apply Hactive in Hsome. unfold IsBTCStakingActivated in Hsome.
    destruct (prefix_Iterator VotingPowerKey kv) as [| [k0 v0] rest] eqn:Hiter;
      [discriminate Hsome |].
    destruct (activation_first_key kv k0 v0 rest Hsorted Hkeyed Hiter)
      as (Hget & Hr & Hseg & Hhas & Hleast).
    exists (be_value (firstn 8 k0)). repeat split; try assumption; try apply Hr.
    intros key value rest' [= <- _ _]. now symmetry.
Qed.

End KeeperFacts.

(** * The tally returns on a registry that decodes *)

Section Returns.

Variable VotingPowerKey : bytes.
Variable BIP340PubKeyLen : nat.
Variable ParsePubKey : bytes -> bool.

Hypothesis key_not_empty : (0 < BIP340PubKeyLen)%nat.
Hypothesis key_fits :
  Z.of_nat (length VotingPowerKey) + 8 + Z.of_nat BIP340PubKeyLen <= MaxKeyLength.

Lemma NewBIP340PubKey_length (data pk : bytes) :
  NewBIP340PubKey BIP340PubKeyLen ParsePubKey data = Some pk ->
  length pk = BIP340PubKeyLen.
Proof.
  unfold NewBIP340PubKey.
  destruct (Nat.eqb (length data) BIP340PubKeyLen) eqn:E; [| discriminate].
  apply Nat.eqb_eq in E. destruct (ParsePubKey data); [| discriminate].
  now intros [= <-].
Qed.

Lemma SetVotingPower_returns (kv : KVStore) (pk : bytes) (height power : Z) :
  length pk = BIP340PubKeyLen ->
  exists kv', SetVotingPower VotingPowerKey kv pk height power = Ok kv'.
Proof.
  intros Hlen. unfold SetVotingPower, prefix_Set, store_Set.
  assert (Hpk : AssertValidKey pk = true).
  { unfold AssertValidKey. rewrite Hlen. apply andb_true_intro. split.
    - apply negb_true_iff, Z.eqb_neq. lia.
    - apply Z.leb_le. lia. }
  assert (Hfull : AssertValidKey (votingPowerStore VotingPowerKey height ++ pk)
                  = true).
  { unfold AssertValidKey, votingPowerStore.
    rewrite !length_app, length_Uint64ToBigEndian, Hlen.
    apply andb_true_intro. split.
    - apply negb_true_iff, Z.eqb_neq. lia.
    - apply Z.leb_le. lia. }
  rewrite Hpk, Hfull. eauto.
Qed.

Lemma setVotingPowers_returns (l : list BTCValidatorWithMeta) (kv : KVStore)
  (height : Z) :
  Forall (fun m => length (BtcPk m) = BIP340PubKeyLen) l ->
  exists kv', setVotingPowers VotingPowerKey kv height l = Ok kv'.
Proof.
  revert kv. induction l as [| m l IH]; intros kv Hl; cbn [setVotingPowers];
    [eauto |].
  apply Forall_cons_iff in Hl as [Hm Hl].
  destruct (SetVotingPower_returns kv (BtcPk m) height (VotingPower m) Hm)
    as [kv1 E].
  unfold MustMarshal. rewrite E. cbn. now apply IH.
Qed.

Lemma sumVotingPower_returns (env : Env) (valBTCPK : bytes) (T w Q : Z)
  (iter : list bytes) (acc : Z) :
  (forall del, In del iter ->
     NewBIP340PubKey BIP340PubKeyLen ParsePubKey del <> None
     /\ getBTCDelegatorDelegations env valBTCPK del <> None) ->
  exists p,
    sumVotingPower BIP340PubKeyLen ParsePubKey env valBTCPK T w Q iter acc = Ok p.
Proof.
  revert acc. induction iter as [| del iter IH]; intros acc Hwf;
    cbn [sumVotingPower]; [eauto |].
  destruct (Hwf del) as [Hpk Hdels]; [now left |].
  destruct (NewBIP340PubKey _ _ del) as [delBTCPK |] eqn:Epk; [| congruence].
  assert (delBTCPK = del) as ->.
  { revert Epk. unfold NewBIP340PubKey. destruct (_ && _); congruence. }
  destruct (getBTCDelegatorDelegations env valBTCPK del); [| congruence].
  apply IH. intros del' Hin. apply Hwf. now right.
Qed.

Lemma collectActive_returns (env : Env) (T w Q : Z)
  (iter : list (bytes * BTCValidator)) (acc : list BTCValidatorWithMeta) :
  (forall pk, In pk (map fst iter) ->
     NewBIP340PubKey BIP340PubKeyLen ParsePubKey pk <> None
     /\ is_Some (GetBTCValidator env pk)
     /\ forall del, In del (btcDelegatorStore env pk) ->
          NewBIP340PubKey BIP340PubKeyLen ParsePubKey del <> None
          /\ getBTCDelegatorDelegations env pk del <> None) ->
  Forall (fun m => length (BtcPk m) = BIP340PubKeyLen) acc ->
  exists out,
    collectActive BIP340PubKeyLen ParsePubKey env T w Q iter acc = Ok out
    /\ Forall (fun m => length (BtcPk m) = BIP340PubKeyLen) out.
Proof.
  revert acc. induction iter as [| [key val] iter IH]; intros acc Hwf Hacc;
    cbn [collectActive]; [eauto |].
  destruct (Hwf key) as (Hpk & [btcVal Hval] & Hdels); [now left |].
  assert (Hrest : forall acc',
            Forall (fun m => length (BtcPk m) = BIP340PubKeyLen) acc' ->
            exists out,
              collectActive BIP340PubKeyLen ParsePubKey env T w Q iter acc' = Ok out
              /\ Forall (fun m => length (BtcPk m) = BIP340PubKeyLen) out).
  { intros acc' Hacc'. apply IH; [| exact Hacc'].
    intros pk Hin. apply Hwf. now right. }
  destruct (NewBIP340PubKey _ _ key) as [valBTCPK |] eqn:Epk; [| congruence].
  pose proof (NewBIP340PubKey_length _ _ Epk) as Hlen.
  assert (valBTCPK = key) as ->.
  { revert Epk. unfold NewBIP340PubKey. destruct (_ && _); congruence. }
  rewrite Hval. destruct (IsSlashed btcVal); [now apply Hrest |].
  destruct (sumVotingPower_returns env key T w Q (btcDelegatorStore env key) 0
              Hdels) as [valPower Esum].
  rewrite Esum. cbn. destruct (0 <? valPower); [| now apply Hrest].
  apply Hrest. apply Forall_app. split; [exact Hacc |].
  constructor; [exact Hlen | constructor].
Qed.

(** X17: the tally returns, without a panic, when every validator key and
    every delegator key of the registry decodes and every delegation is
    found, the keys being non-empty and short enough for the store. *)
Lemma RecordVotingPowerTable_returns (env : Env) (kv : KVStore) :
  (forall pk, In pk (map fst (btcValidatorStore env)) ->
     NewBIP340PubKey BIP340PubKeyLen ParsePubKey pk <> None
     /\ forall del, In del (btcDelegatorStore env pk) ->
          NewBIP340PubKey BIP340PubKeyLen ParsePubKey del <> None
          /\ getBTCDelegatorDelegations env pk del <> None) ->
  exists kv',
    RecordVotingPowerTable VotingPowerKey BIP340PubKeyLen ParsePubKey env kv
    = Ok kv'.
Proof.
  intros Hwf. unfold RecordVotingPowerTable.
  destruct (GetCurrentBTCHeight env) as [T |]; [| eauto].
  assert (Hreg : forall pk, In pk (map fst (btcValidatorStore env)) ->
            NewBIP340PubKey BIP340PubKeyLen ParsePubKey pk <> None
            /\ is_Some (GetBTCValidator env pk)
            /\ forall del, In del (btcDelegatorStore env pk) ->
                 NewBIP340PubKey BIP340PubKeyLen ParsePubKey del <> None
                 /\ getBTCDelegatorDelegations env pk del <> None).
  { intros pk Hin. destruct (Hwf pk Hin) as [Hpk Hdels].
    split; [exact Hpk |]. split; [| exact Hdels].
    apply GetBTCValidator_in_known in Hin as [v Hv]. exists v. exact Hv. }
  destruct (collectActive_returns env T (CheckpointFinalizationTimeout env)
              (CovenantQuorum (GetParams env)) (btcValidatorStore env) []
              Hreg (Forall_nil _))
    as (out & Eout & Hout).
  rewrite Eout. cbn. destruct (Nat.eqb (length out) 0); [eauto |].
  apply setVotingPowers_returns. apply Forall_forall. intros m Hm.
  apply FilterTopNBTCValidators_In in Hm.
  rewrite Forall_forall in Hout. now apply Hout.
Qed.

End Returns.

(** * The scenario of the specification, run *)

Section ScenarioRuns.

Import Scenario.

Local Abbreviation VPK := Scenario.VotingPowerKey.
Local Abbreviation PKLen := Scenario.BIP340PubKeyLen.
Local Abbreviation Parse := Scenario.ParsePubKey.

Lemma SetVotingPower_GetVotingPower_witness :
  exists kv',
    SetVotingPower VPK [] pkA 7 100 = Ok kv'
    /\ GetVotingPower VPK (env_at 7) kv' pkA 7 = Ok 100.
Proof.
  apply (SetVotingPower_GetVotingPower VPK (env_at 7) [] pkA 7 100);
    [reflexivity | reflexivity | reflexivity | lia].
Defined.

Lemma GetVotingPower_unknown_or_absent_witness :
  GetVotingPower VPK (env_at 8) kv7 delegator 7 = Ok 0
  /\ GetVotingPower VPK (env_at 8) kv7 pkC 7 = Ok 0.
Proof.
  split.
  - apply (proj1 (GetVotingPower_unknown_or_absent VPK (env_at 8) kv7 delegator 7)).
    reflexivity.
  - apply (proj2 (GetVotingPower_unknown_or_absent VPK (env_at 8) kv7 pkC 7));
      reflexivity.
Defined.

Lemma RecordVotingPowerTable_frame_witness :
  prefix_Iterator (votingPowerStore VPK 7) kv8
  = prefix_Iterator (votingPowerStore VPK 7) kv7
  /\ HasVotingPowerTable VPK kv8 7 = HasVotingPowerTable VPK kv7 7
  /\ GetVotingPowerTable VPK PKLen Parse kv8 7
     = GetVotingPowerTable VPK PKLen Parse kv7 7.
Proof.
  apply (RecordVotingPowerTable_frame VPK PKLen Parse (env_at 8) kv7 kv8 7);
    [reflexivity | vm_compute; discriminate].
Defined.

Lemma RecordVotingPowerTable_tip_lookup_fails_witness :
  exists kv',
    RecordVotingPowerTable VPK PKLen Parse (env_no_tip 8) kv7 = Ok kv'
    /\ kv' = kv7
    /\ (HasVotingPowerTable VPK kv7 8 = false ->
        HasVotingPowerTable VPK kv' 8 = false)
    /\ forall env', BlockHeight env' = 8 + 1 ->
         RecordVotingPowerTable VPK PKLen Parse env' kv'
         = RecordVotingPowerTable VPK PKLen Parse env' kv7.
Proof.
  apply (RecordVotingPowerTable_tip_lookup_fails VPK PKLen Parse
           (env_no_tip 8) kv7).
  reflexivity.
Defined.

Lemma RecordVotingPowerTable_no_candidates_witness :
  exists kv',
    RecordVotingPowerTable VPK PKLen Parse (env_idle 9) kv7 = Ok kv'
    /\ kv' = kv7
    /\ HasVotingPowerTable VPK kv' 9 = false.
Proof.
  apply (RecordVotingPowerTable_no_candidates VPK PKLen Parse (env_idle 9) kv7);
    [| reflexivity].
  intros T pk _ Hin. simpl in Hin.
  destruct Hin as [<- | [<- | [<- | [<- | []]]]];
    (split; [vm_compute; discriminate | intros v _ _; reflexivity]).
Defined.

Lemma RecordVotingPowerTable_excludes_slashed_witness :
  prefix_Get (votingPowerStore VPK 7) kv7 pkD
  = prefix_Get (votingPowerStore VPK 7) [] pkD
  /\ (HasVotingPowerTable VPK [] 7 = false ->
      ~ In pkD (map fst (prefix_Iterator (votingPowerStore VPK 7) kv7))
      /\ forall env', GetVotingPower VPK env' kv7 pkD 7 = Ok 0).
Proof.
  apply (RecordVotingPowerTable_excludes_slashed VPK PKLen Parse
           (env_at 7) [] kv7 pkD {| slashed := true |});
    reflexivity.
Defined.

Lemma RecordVotingPowerTable_snapshots_within_cap_witness :
  snapshot_within 2 (prefix_Iterator (votingPowerStore VPK 7) kv7)
  /\ snapshot_within 1
       (prefix_Iterator (votingPowerStore VPK 8) ScenarioMore.kv8_cap1)
  /\ prefix_Iterator (votingPowerStore VPK 7) ScenarioMore.kv8_cap1
     = prefix_Iterator (votingPowerStore VPK 7) kv7
  /\ snapshot_within 2
       (prefix_Iterator (votingPowerStore VPK 7) ScenarioMore.kv8_cap1).
Proof.
  assert (H7 : snapshot_within 2 (prefix_Iterator (votingPowerStore VPK 7) kv7)).
  { apply (proj1 (RecordVotingPowerTable_snapshots_within_cap VPK PKLen Parse
                    (env_at 7) [] kv7 eq_refl eq_refl 7 eq_refl)).
    reflexivity. }
  split; [exact H7 |]. split.
  - apply (proj1 (RecordVotingPowerTable_snapshots_within_cap VPK PKLen Parse
                    (ScenarioMore.env_cap1 8) kv7 ScenarioMore.kv8_cap1
                    eq_refl eq_refl 8 eq_refl)).
    reflexivity.
  - destruct (proj2 (RecordVotingPowerTable_snapshots_within_cap VPK PKLen Parse
                       (ScenarioMore.env_cap1 8) kv7 ScenarioMore.kv8_cap1
                       eq_refl eq_refl 7 eq_refl)) as [Hsame Hkept].
    + vm_compute. discriminate.
    + split; [exact Hsame | apply Hkept; exact H7].
Defined.

Lemma GetVotingPower_zero_cases_witness :
  GetVotingPower VPK (env_A_slashed 8) kv7 pkC 7 = Ok 0
  /\ GetVotingPower VPK (env_A_slashed 8) kv7 pkD 7 = Ok 0
  /\ GetVotingPower VPK (env_A_slashed 8) kv7 pkA 7
     = BigEndianToUint64 (Uint64ToBigEndian 100).
Proof.
  split; [| split].
  - apply (proj1 (GetVotingPower_zero_cases VPK PKLen Parse
                    (env_A_slashed 8) kv7 pkC 7)).
    reflexivity.
  - apply (proj1 (proj2 (GetVotingPower_zero_cases VPK PKLen Parse
                           (env_A_slashed 8) kv7 pkD 7))
             (env_at 7) [] {| slashed := true |});
      reflexivity.
  - apply (proj2 (proj2 (GetVotingPower_zero_cases VPK PKLen Parse
                           (env_A_slashed 8) kv7 pkA 7)));
      [reflexivity | reflexivity | discriminate].
Defined.

(** Validator A is slashed in the current registry and has an entry in the
    snapshot of height 7, written by the tally before it was slashed: its
    power at height 7 reads 100, not zero. *)
Lemma GetVotingPower_slashed_counterexample :
  RecordVotingPowerTable VPK PKLen Parse (env_at 7) [] = Ok kv7
  /\ (exists v, GetBTCValidator (env_A_slashed 8) pkA = Some v
                /\ IsSlashed v = true)
  /\ GetVotingPower VPK (env_A_slashed 8) kv7 pkA 7 = Ok 100
  /\ GetVotingPower VPK (env_A_slashed 8) kv7 pkA 7 <> Ok 0.
Proof.
  split; [reflexivity |]. split; [| split].
  - exists {| slashed := true |}. split; reflexivity.
  - reflexivity.
  - vm_compute. discriminate.
Qed.

Lemma GetVotingPowerTable_full_or_nil_witness :
  GetVotingPowerTable VPK PKLen Parse kv7 8 = Ok None
  /\ (exists m : gmap string Z,
        GetVotingPowerTable VPK PKLen Parse kv7 7 = Ok (Some m)
        /\ m <> ∅
        /\ m !! MarshalHex pkA = Some 100
        /\ m !! MarshalHex pkB = Some 80
        /\ forall key p, m !! key = Some p ->
             (key = MarshalHex pkA /\ p = 100) \/ (key = MarshalHex pkB /\ p = 80))
  /\ GetVotingPowerTable VPK PKLen Parse kv7 7 <> Ok (Some ∅).
Proof.
  split; [| split].
  - apply (proj1 (GetVotingPowerTable_full_or_nil VPK PKLen Parse kv7 8 eq_refl)).
    reflexivity.
  - destruct (proj1 (proj2 (proj2
               (GetVotingPowerTable_full_or_nil VPK PKLen Parse kv7 7 eq_refl)))
               eq_refl) as [m Hm].
    + intros k v Hin. vm_compute in Hin.
      destruct Hin as [[= <- <-] | [[= <- <-] | []]];
        (split; [vm_compute; discriminate | reflexivity]).
    + exists m. split; [exact Hm |].
      destruct (proj1 (proj2
                 (GetVotingPowerTable_full_or_nil VPK PKLen Parse kv7 7 eq_refl))
                 eq_refl (Some m) Hm)
        as (m' & [= <-] & Hne & _ & Hwritten & Honly).
      split; [exact Hne |]. split; [| split].
      * apply (Hwritten pkA 100). vm_compute. now left.
      * apply (Hwritten pkB 80). vm_compute. right. now left.
      * intros key p Hkey.
        destruct (Honly key p Hkey) as (k & v & Hin & -> & ->).
        vm_compute in Hin.
        destruct Hin as [[= <- <-] | [[= <- <-] | []]];
          [left | right]; split; reflexivity.
  - apply (proj2 (proj2 (proj2
             (GetVotingPowerTable_full_or_nil VPK PKLen Parse kv7 7 eq_refl)))).
Defined.

Lemma GetBTCStakingActivatedHeight_least_witness :
  exists h0,
    GetBTCStakingActivatedHeight VPK kv8 = Ok (h0, None)
    /\ 0 <= h0 < 2 ^ 64
    /\ HasVotingPowerTable VPK kv8 h0 = true
    /\ (forall H, 0 <= H < 2 ^ 64 -> HasVotingPowerTable VPK kv8 H = true -> h0 <= H)
    /\ forall key value rest,
         prefix_Iterator VPK kv8 = (key, value) :: rest ->
         firstn 8 key = Uint64ToBigEndian h0.
Proof.
  apply (proj2 (proj2 (GetBTCStakingActivatedHeight_least VPK kv8
                         eq_refl eq_refl))).
  exists 8. split; [lia | reflexivity].
Defined.

End ScenarioRuns.

(** * Further facts about the store and the tally *)

(** ** Writes of one key *)

Lemma store_insert_insert (s : KVStore) (k v1 v2 : bytes) :
  store_insert (store_insert s k v1) k v2 = store_insert s k v2.
Proof.
  induction s as [| [k' v'] s IH]; cbn [store_insert].
  - now rewrite bytes_compare_refl.
  - destruct (bytes_compare k k') eqn:E; cbn [store_insert].
    + now rewrite bytes_compare_refl.
    + now rewrite bytes_compare_refl.
    + now rewrite E, IH.
Qed.

Lemma store_insert_keeps_key (s : KVStore) (k v k2 : bytes) :
  In k2 (map fst s) -> In k2 (map fst (store_insert s k v)).
Proof.
  induction s as [| [k' v'] s IH]; cbn [store_insert map fst In]; [intros [] |].
  intros Hin. destruct (bytes_compare k k') eqn:E; cbn [map fst In].
  - apply bytes_compare_eq in E. subst k'. exact Hin.
  - right. exact Hin.
  - destruct Hin as [-> | Hin]; [now left | right; now apply IH].
Qed.

Lemma store_get_Some_key (s : KVStore) (k : bytes) :
  In k (map fst s) <-> exists v, store_get s k = Some v.
Proof.
  split.
  - intros Hin. destruct (store_get s k) as [v |] eqn:E; [eauto |].
    now apply store_get_None in E.
  - intros [v Hv]. apply store_get_In in Hv.
    apply in_map_iff. now exists (k, v).
Qed.

Section StoreOperations.

Variable VotingPowerKey : bytes.
Variable BIP340PubKeyLen : nat.
Variable ParsePubKey : bytes -> bool.

Local Abbreviation vpStore := (votingPowerStore VotingPowerKey).
Local Abbreviation entries kv height := (prefix_Iterator (vpStore height) kv).
Local Abbreviation tally :=
  (RecordVotingPowerTable VotingPowerKey BIP340PubKeyLen ParsePubKey).


(** X1: a second write to a slot replaces the first: writing [p1] and then
    [p2] under one key and height leaves the store that writing [p2] alone
    leaves. *)
Theorem SetVotingPower_overwrite (kv kv1 : KVStore) (pk : bytes) (h p1 p2 : Z) :
  SetVotingPower VotingPowerKey kv pk h p1 = Ok kv1 ->
  SetVotingPower VotingPowerKey kv1 pk h p2
  = SetVotingPower VotingPowerKey kv pk h p2.
Proof.
  intros Hfirst. pose proof (SetVotingPower_Ok _ _ _ _ _ _ Hfirst) as ->.
  unfold SetVotingPower, prefix_Set, store_Set.
  destruct (AssertValidKey pk); [| reflexivity].
  destruct (AssertValidKey (vpStore h ++ pk)); [| reflexivity].
  now rewrite store_insert_insert.
Qed.


(** X3: a write that returns creates the snapshot of its height and
    activates BTC staking: [HasVotingPowerTable] holds at the height,
    [IsBTCStakingActivated] holds, and [GetVotingPowerTable] no longer
    gives the nil map for the height. *)
Theorem SetVotingPower_activates (kv kv' : KVStore) (pk : bytes) (h p : Z) :
  SetVotingPower VotingPowerKey kv pk h p = Ok kv' ->
  HasVotingPowerTable VotingPowerKey kv' h = true
  /\ IsBTCStakingActivated VotingPowerKey kv' = true
  /\ GetVotingPowerTable VotingPowerKey BIP340PubKeyLen ParsePubKey kv' h
     <> Ok None.
Proof.
  intros Hset. apply SetVotingPower_Ok in Hset. subst kv'.
  set (kv' := store_insert kv (vpStore h ++ pk) (Uint64ToBigEndian p)).
  assert (Hin : In (vpStore h ++ pk, Uint64ToBigEndian p) kv')
    by apply In_store_insert_new.
  assert (Hhas : HasVotingPowerTable VotingPowerKey kv' h = true).
  { apply HasVotingPowerTable_true. eauto. }
  split; [exact Hhas |]. split.
  - apply entries_in_table in Hin. unfold IsBTCStakingActivated.
    destruct (prefix_Iterator VotingPowerKey kv'); [destruct Hin | reflexivity].
  - unfold GetVotingPowerTable. unfold HasVotingPowerTable in Hhas.
    destruct (entries kv' h) as [| e iter]; [discriminate Hhas |].
    destruct (collectValSet _ _ (e :: iter) ∅); discriminate.
Qed.

(** X4: [GetVotingPowerTable] gives the nil map exactly when
    [HasVotingPowerTable] is false, so the boolean query is a sound and
    complete test for the absent table. *)
Theorem GetVotingPowerTable_nil_iff (kv : KVStore) (H : Z) :
  GetVotingPowerTable VotingPowerKey BIP340PubKeyLen ParsePubKey kv H = Ok None
  <-> HasVotingPowerTable VotingPowerKey kv H = false.
Proof.
  unfold GetVotingPowerTable, HasVotingPowerTable.
  destruct (entries kv H) as [| e iter]; [split; reflexivity |].
  split; [| discriminate].
  destruct (collectValSet _ _ (e :: iter) ∅); discriminate.
Qed.

(** The writes of the tally leave every store key outside the partition of
    their height as it was. *)
Lemma setVotingPowers_root_frame (l : list BTCValidatorWithMeta)
  (kv kv' : KVStore) (height : Z) (key : bytes) :
  setVotingPowers VotingPowerKey kv height l = Ok kv' ->
  has_prefix (vpStore height) key = false ->
  store_get kv' key = store_get kv key.
Proof.
  revert kv. induction l as [| m l IH]; intros kv Hrun Hout;
    cbn [setVotingPowers] in Hrun.
  - now injection Hrun as <-.
  - destruct (SetVotingPower _ kv _ _ _) as [kv1 |] eqn:E; [| discriminate Hrun].
    cbn in Hrun. rewrite (IH _ Hrun Hout).
    apply SetVotingPower_Ok in E. subst kv1.
    apply store_get_insert_ne. intros <-.
    rewrite has_prefix_app in Hout. discriminate Hout.
Qed.

(** X5: the tally writes nowhere but under the voting power prefix followed
    by its own height: every other key of the module store, the table of
    another height or the data of another prefix alike, keeps its value. *)
Theorem RecordVotingPowerTable_root_frame (env : Env) (kv kv' : KVStore)
  (key : bytes) :
  tally env kv = Ok kv' ->
  has_prefix (votingPowerStore VotingPowerKey (BlockHeight env)) key = false ->
  store_get kv' key = store_get kv key.
Proof.
  intros Hrun Hout.
  apply RecordVotingPowerTable_writes in Hrun as (active & Hset & _).
  apply (setVotingPowers_root_frame active _ _ (uint64 (BlockHeight env)));
    [exact Hset | now rewrite votingPowerStore_uint64].
Qed.

(** ** The table and the single reads agree *)

Lemma collectValSet_size (iter : list (bytes * bytes)) (m0 m : gmap string Z) :
  collectValSet BIP340PubKeyLen ParsePubKey iter m0 = Ok m ->
  NoDup (map fst iter) ->
  (forall k, In k (map fst iter) -> m0 !! EncodeToString k = None) ->
  size m = (size m0 + length iter)%nat.
Proof.
  revert m0. induction iter as [| [k v] iter IH]; intros m0 Hrun Hnd Hfresh;
    cbn [collectValSet] in Hrun.
  - injection Hrun as <-. cbn [length]. lia.
  - destruct (NewBIP340PubKey _ _ k) as [pk |] eqn:Epk; [| discriminate Hrun].
    apply NewBIP340PubKey_Some in Epk. subst pk.
    destruct (BigEndianToUint64 v) as [p |]; [| discriminate Hrun].
    cbn in Hrun. cbn [map fst] in Hnd. apply NoDup_cons_iff in Hnd as [Hk Hnd].
    rewrite (IH _ Hrun Hnd).
    + unfold MarshalHex. rewrite map_size_insert_None.
      * cbn [length]. lia.
      * apply Hfresh. now left.
    + intros k' Hk'. unfold MarshalHex. rewrite lookup_insert_ne.
      * apply Hfresh. now right.
      * intros E. apply EncodeToString_inj in E. now subst k'.
Qed.

(** X6: the table of a height and the single read agree: for a key the
    registry knows, [GetVotingPower] returns the power the map of
    [GetVotingPowerTable] holds under the hexadecimal form of the key, and
    zero when the map has no such key. *)
Theorem GetVotingPowerTable_agrees_GetVotingPower (env : Env) (kv : KVStore)
  (H : Z) (m : gmap string Z) (pk : bytes) :
  store_sorted kv = true ->
  GetVotingPowerTable VotingPowerKey BIP340PubKeyLen ParsePubKey kv H
  = Ok (Some m) ->
  HasBTCValidator env pk = true ->
  GetVotingPower VotingPowerKey env kv pk H
  = Ok (default 0 (m !! MarshalHex pk)).
Proof.
  intros Hsorted Htable Hknown.
  pose proof (prefix_Iterator_NoDup (vpStore H) kv Hsorted) as Hnd.
  unfold GetVotingPowerTable in Htable.
  destruct (entries kv H) as [| e iter] eqn:Eiter; [discriminate Htable |].
  destruct (collectValSet _ _ (e :: iter) ∅) as [m' |] eqn:Ec;
    [| discriminate Htable].
  cbn in Htable. injection Htable as ->. rewrite <- Eiter in Ec, Hnd.
  destruct (prefix_Get (vpStore H) kv pk) as [value |] eqn:Eget.
  - assert (Hin : In (pk, value) (entries kv H)).
    { apply In_prefix_Iterator. now apply store_get_In. }
    destruct (collectValSet_complete _ _ _ _ _ _ _ Ec Hnd Hin) as (p & Hp & Hm).
    unfold MarshalHex. rewrite Hm. cbn [default].
    unfold GetVotingPower. rewrite Hknown, Eget. cbn [negb].
    destruct value; [cbn in Hp |- *; congruence | exact Hp].
  - rewrite (GetVotingPower_absent _ _ _ _ _ Eget).
    destruct (m !! MarshalHex pk) as [p |] eqn:Em; [| reflexivity].
    exfalso.
    destruct (collectValSet_sound _ _ _ _ _ _ _ Ec Em)
      as [Hold | (k & v & Hin & Ek & _)].
    + rewrite lookup_empty in Hold. discriminate Hold.
    + apply EncodeToString_inj in Ek. subst k.
      apply prefix_Get_None in Eget. apply Eget.
      apply in_map_iff. now exists (pk, v).
Qed.

(** X7: the map of [GetVotingPowerTable] has one key per entry stored under
    the height: no two entries of a height fall on one hexadecimal key. *)
Theorem GetVotingPowerTable_size (kv : KVStore) (H : Z) (m : gmap string Z) :
  store_sorted kv = true ->
  GetVotingPowerTable VotingPowerKey BIP340PubKeyLen ParsePubKey kv H
  = Ok (Some m) ->
  size m = length (prefix_Iterator (votingPowerStore VotingPowerKey H) kv).
Proof.
  intros Hsorted Htable.
  pose proof (prefix_Iterator_NoDup (vpStore H) kv Hsorted) as Hnd.
  unfold GetVotingPowerTable in Htable.
  destruct (entries kv H) as [| e iter] eqn:Eiter; [discriminate Htable |].
  destruct (collectValSet _ _ (e :: iter) ∅) as [m' |] eqn:Ec;
    [| discriminate Htable].
  cbn in Htable. injection Htable as ->.
  rewrite (collectValSet_size _ _ _ Ec Hnd).
  - now rewrite map_size_empty.
  - intros k _. apply lookup_empty.
Qed.

(** ** The shape of the table *)

Lemma power_valued_iff (kv : KVStore) :
  power_valued VotingPowerKey kv = true <->
  forall k v, In (k, v) (prefix_Iterator VotingPowerKey kv) -> length v = 8%nat.
Proof.
  unfold power_valued. rewrite forallb_forall. split.
  - intros Hall k v Hin. apply Hall in Hin. cbn [snd] in Hin.
    now apply Nat.eqb_eq.
  - intros Hall [k v] Hin. cbn [snd]. apply Nat.eqb_eq. now apply (Hall k v).
Qed.

Lemma SetVotingPower_power_valued (kv kv' : KVStore) (valBTCPK : bytes)
  (height power : Z) :
  SetVotingPower VotingPowerKey kv valBTCPK height power = Ok kv' ->
  power_valued VotingPowerKey kv = true ->
  power_valued VotingPowerKey kv' = true.
Proof.
  intros Hset Hvalued. apply SetVotingPower_Ok in Hset. subst kv'.
  rewrite power_valued_iff in Hvalued |- *. intros k v Hin.
  unfold votingPowerStore in Hin. rewrite <- app_assoc in Hin.
  apply In_prefix_Iterator_insert in Hin as [[_ ->] | Hin].
  - apply length_Uint64ToBigEndian.
  - now apply (Hvalued k v).
Qed.

Lemma setVotingPowers_power_valued (l : list BTCValidatorWithMeta)
  (kv kv' : KVStore) (height : Z) :
  setVotingPowers VotingPowerKey kv height l = Ok kv' ->
  power_valued VotingPowerKey kv = true ->
  power_valued VotingPowerKey kv' = true.
Proof.
  revert kv. induction l as [| m l IH]; intros kv Hrun Hvalued;
    cbn [setVotingPowers] in Hrun.
  - now injection Hrun as <-.
  - destruct (SetVotingPower _ kv _ _ _) as [kv1 |] eqn:E; [| discriminate Hrun].
    cbn in Hrun. apply (IH _ Hrun).
    eapply SetVotingPower_power_valued; eassumption.
Qed.

(** X8: the tally keeps the shape of the table: on a store in ascending key
    order whose table keys start with an 8-byte height segment and whose
    table values have 8 bytes, a tally that returns leaves a store of the
    same shape. *)
Theorem RecordVotingPowerTable_keeps_shape (env : Env) (kv kv' : KVStore) :
  tally env kv = Ok kv' ->
  store_sorted kv = true ->
  height_keyed VotingPowerKey kv = true ->
  power_valued VotingPowerKey kv = true ->
  store_sorted kv' = true
  /\ height_keyed VotingPowerKey kv' = true
  /\ power_valued VotingPowerKey kv' = true.
Proof.
  intros Hrun Hsorted Hkeyed Hvalued.
  apply RecordVotingPowerTable_writes in Hrun as (active & Hset & _).
  split; [| split].
  - eapply setVotingPowers_sorted; eassumption.
  - eapply setVotingPowers_height_keyed; eassumption.
  - eapply setVotingPowers_power_valued; eassumption.
Qed.

(** X9: on a table whose values have 8 bytes, as the tally leaves it,
    [GetVotingPower] never panics: for every key and height it returns a
    64-bit power. *)
Theorem GetVotingPower_returns (env : Env) (kv : KVStore) (pk : bytes) (H : Z) :
  power_valued VotingPowerKey kv = true ->
  exists p, GetVotingPower VotingPowerKey env kv pk H = Ok p /\ 0 <= p < 2 ^ 64.
Proof.
  intros Hvalued. unfold GetVotingPower.
  destruct (negb (HasBTCValidator env pk)); [exists 0; split; [reflexivity | lia] |].
  destruct (prefix_Get (vpStore H) kv pk) as [value |] eqn:Eget;
    [| exists 0; split; [reflexivity | lia]].
  assert (Hlen : length value = 8%nat).
  { rewrite power_valued_iff in Hvalued.
    apply (Hvalued (Uint64ToBigEndian H ++ pk) value).
    apply entries_in_table. now apply store_get_In. }
  rewrite Hlen. cbn [Nat.eqb].
  exists (be_value (firstn 8 value)). split.
  - destruct value as [| b value]; [discriminate Hlen |].
    apply Uint64_be_value. rewrite Hlen. lia.
  - pose proof (be_value_range (firstn 8 value)) as Hr.
    rewrite length_firstn, Hlen in Hr. exact Hr.
Qed.

(** ** Activation over time *)

Lemma HasVotingPowerTable_uint64 (kv : KVStore) (H : Z) :
  HasVotingPowerTable VotingPowerKey kv (uint64 H)
  = HasVotingPowerTable VotingPowerKey kv H.
Proof. unfold HasVotingPowerTable. now rewrite votingPowerStore_uint64. Qed.

Lemma HasVotingPowerTable_congr (kv : KVStore) (H H' : Z) :
  uint64 H = uint64 H' ->
  HasVotingPowerTable VotingPowerKey kv H = HasVotingPowerTable VotingPowerKey kv H'.
Proof.
  intros E. rewrite <- (HasVotingPowerTable_uint64 kv H), E.
  apply HasVotingPowerTable_uint64.
Qed.

Lemma not_activated_no_snapshot (kv : KVStore) (H : Z) :
  IsBTCStakingActivated VotingPowerKey kv = false ->
  HasVotingPowerTable VotingPowerKey kv H = false.
Proof.
  unfold IsBTCStakingActivated. intros Hnot.
  destruct (HasVotingPowerTable VotingPowerKey kv H) eqn:Hhas; [| reflexivity].
  apply HasVotingPowerTable_true in Hhas as (key & value & Hin).
  apply entries_in_table in Hin.
  destruct (prefix_Iterator VotingPowerKey kv); [destruct Hin | discriminate Hnot].
Qed.

(** The writes of the tally never remove a snapshot. *)
Lemma setVotingPowers_keeps_snapshot (l : list BTCValidatorWithMeta)
  (kv kv' : KVStore) (height H : Z) :
  setVotingPowers VotingPowerKey kv height l = Ok kv' ->
  HasVotingPowerTable VotingPowerKey kv H = true ->
  HasVotingPowerTable VotingPowerKey kv' H = true.
Proof.
  revert kv. induction l as [| m l IH]; intros kv Hrun Hhas;
    cbn [setVotingPowers] in Hrun.
  - now injection Hrun as <-.
  - destruct (SetVotingPower _ kv _ _ _) as [kv1 |] eqn:E; [| discriminate Hrun].
    cbn in Hrun. apply (IH _ Hrun).
    apply SetVotingPower_Ok in E. subst kv1.
    apply HasVotingPowerTable_true in Hhas as (key & value & Hin).
    assert (Hkey : In (vpStore H ++ key) (map fst kv))
      by (apply in_map_iff; now exists (vpStore H ++ key, value)).
    apply (store_insert_keeps_key kv (vpStore height ++ MustMarshal (BtcPk m))
             (Uint64ToBigEndian (VotingPower m))) in Hkey.
    apply in_map_iff in Hkey as [[k' value'] [Ek Hin']]. cbn [fst] in Ek.
    subst k'. apply HasVotingPowerTable_true. eauto.
Qed.

(** The activation height is the least 64-bit height with a snapshot. *)
Lemma activation_height_least (kv : KVStore) (h0 : Z) :
  store_sorted kv = true ->
  height_keyed VotingPowerKey kv = true ->
  (GetBTCStakingActivatedHeight VotingPowerKey kv = Ok (h0, None)
   <-> 0 <= h0 < 2 ^ 64
       /\ HasVotingPowerTable VotingPowerKey kv h0 = true
       /\ forall H, 0 <= H < 2 ^ 64 ->
            HasVotingPowerTable VotingPowerKey kv H = true -> h0 <= H).
Proof.
  intros Hsorted Hkeyed.
  destruct (prefix_Iterator VotingPowerKey kv) as [| [k0 v0] rest] eqn:Hiter.
  - split.
    + unfold GetBTCStakingActivatedHeight. rewrite Hiter. discriminate.
    + intros (_ & Hhas & _).
      rewrite not_activated_no_snapshot in Hhas; [discriminate Hhas |].
      unfold IsBTCStakingActivated. now rewrite Hiter.
  - destruct (activation_first_key _ kv k0 v0 rest Hsorted Hkeyed Hiter)
      as (Hget & Hr & _ & Hhas & Hleast).
    rewrite Hget. split.
    + intros [= <-]. auto.
    + intros (Hr0 & Hhas0 & Hleast0).
      assert (be_value (firstn 8 k0) = h0); [| congruence].
      apply Z.le_antisymm; [now apply Hleast | now apply Hleast0].
Qed.

(** X10: once BTC staking is activated, a later tally does not move the
    activation height: when the tally runs at a height that is not below
    it, [GetBTCStakingActivatedHeight] answers afterwards what it answered
    before. *)
Theorem activation_height_stable (env : Env) (kv kv' : KVStore) (h0 : Z) :
  store_sorted kv = true ->
  height_keyed VotingPowerKey kv = true ->
  GetBTCStakingActivatedHeight VotingPowerKey kv = Ok (h0, None) ->
  h0 <= uint64 (BlockHeight env) ->
  tally env kv = Ok kv' ->
  GetBTCStakingActivatedHeight VotingPowerKey kv' = Ok (h0, None).
Proof.
  intros Hsorted Hkeyed Hact Hlater Hrun.
  apply RecordVotingPowerTable_writes in Hrun as (active & Hset & _).
  apply (activation_height_least kv h0 Hsorted Hkeyed) in Hact
    as (Hr & Hhas & Hleast).
  apply activation_height_least.
  - eapply setVotingPowers_sorted; eassumption.
  - eapply setVotingPowers_height_keyed; eassumption.
  - split; [exact Hr |]. split.
    + eapply setVotingPowers_keeps_snapshot; eassumption.
    + intros H HH Hhas'.
      destruct (Z.eq_dec (uint64 H) (uint64 (BlockHeight env))) as [Heq | Hne].
      * rewrite (uint64_small H HH) in Heq. lia.
      * apply Hleast; [exact HH |].
        unfold HasVotingPowerTable in Hhas' |- *.
        rewrite <- (setVotingPowers_frame _ active kv kv'
                      (uint64 (BlockHeight env)) H Hset);
          [exact Hhas' | now rewrite uint64_idem].
Qed.

(** X11: the first snapshot activates BTC staking at its own height: after
    a tally on a store that was not activated, the activation height is the
    block height of the tally when the tally wrote a snapshot, and the
    store is still not activated when it wrote none. *)
Theorem first_snapshot_activates (env : Env) (kv kv' : KVStore) :
  store_sorted kv = true ->
  height_keyed VotingPowerKey kv = true ->
  IsBTCStakingActivated VotingPowerKey kv = false ->
  tally env kv = Ok kv' ->
  (HasVotingPowerTable VotingPowerKey kv' (BlockHeight env) = true ->
     GetBTCStakingActivatedHeight VotingPowerKey kv'
     = Ok (uint64 (BlockHeight env), None))
  /\ (HasVotingPowerTable VotingPowerKey kv' (BlockHeight env) = false ->
      IsBTCStakingActivated VotingPowerKey kv' = false
      /\ GetBTCStakingActivatedHeight VotingPowerKey kv'
         = Ok (0, Some ErrBTCStakingNotActivated)).
Proof.
  intros Hsorted Hkeyed Hnot Hrun.
  apply RecordVotingPowerTable_writes in Hrun as (active & Hset & _).
  assert (Hsorted' : store_sorted kv' = true)
    by (eapply setVotingPowers_sorted; eassumption).
  assert (Hkeyed' : height_keyed VotingPowerKey kv' = true)
    by (eapply setVotingPowers_height_keyed; eassumption).
  assert (Hother : forall H, uint64 H <> uint64 (BlockHeight env) ->
            HasVotingPowerTable VotingPowerKey kv' H = false).
  { intros H Hne. unfold HasVotingPowerTable.
    rewrite (setVotingPowers_frame _ active kv kv'
               (uint64 (BlockHeight env)) H Hset)
      by now rewrite uint64_idem.
    apply (not_activated_no_snapshot kv H Hnot). }
  split.
  - intros Hwrote. apply (activation_height_least kv' _ Hsorted' Hkeyed').
    split; [apply uint64_range |]. split.
    + now rewrite HasVotingPowerTable_uint64.
    + intros H HH Hhas.
      destruct (Z.eq_dec (uint64 H) (uint64 (BlockHeight env))) as [Heq | Hne].
      * rewrite (uint64_small H HH) in Heq. lia.
      * rewrite (Hother H Hne) in Hhas. discriminate Hhas.
  - intros Hnone.
    assert (Hempty : prefix_Iterator VotingPowerKey kv' = []).
    { destruct (prefix_Iterator VotingPowerKey kv') as [| [k0 v0] rest] eqn:Hiter;
        [reflexivity |].
      destruct (activation_first_key _ kv' k0 v0 rest Hsorted' Hkeyed' Hiter)
        as (_ & _ & _ & Hhas & _).
      destruct (Z.eq_dec (uint64 (be_value (firstn 8 k0)))
                  (uint64 (BlockHeight env))) as [Heq | Hne].
      - rewrite (HasVotingPowerTable_congr kv' _ _ Heq), Hnone in Hhas.
        discriminate Hhas.
      - rewrite (Hother _ Hne) in Hhas. discriminate Hhas. }
    unfold IsBTCStakingActivated, GetBTCStakingActivatedHeight.
    now rewrite Hempty.
Qed.

(** ** Where the powers of a snapshot come from *)

Lemma collectActive_scored (env : Env) (T : Z)
  (iter : list (bytes * BTCValidator)) (acc out : list BTCValidatorWithMeta) :
  collectActive BIP340PubKeyLen ParsePubKey env T
    (CheckpointFinalizationTimeout env) (CovenantQuorum (GetParams env))
    iter acc = Ok out ->
  Forall (scored_candidate BIP340PubKeyLen ParsePubKey env T) acc ->
  Forall (scored_candidate BIP340PubKeyLen ParsePubKey env T) out.
Proof.
  revert acc. induction iter as [| [key val] iter IH]; intros acc Hrun Hacc;
    cbn [collectActive] in Hrun.
  - now injection Hrun as <-.
  - destruct (NewBIP340PubKey _ _ key) as [valBTCPK |] eqn:Epk;
      [| discriminate Hrun].
    pose proof (NewBIP340PubKey_Some _ _ _ _ Epk) as ->.
    destruct (GetBTCValidator env key) as [btcVal |] eqn:Eval;
      [| discriminate Hrun].
    destruct (IsSlashed btcVal) eqn:Eslashed; [now apply (IH acc) |].
    destruct (sumVotingPower _ _ env key T _ _ _ 0) as [valPower |] eqn:Esum;
      [| discriminate Hrun].
    cbn in Hrun. destruct (0 <? valPower) eqn:Epos; [| now apply (IH acc)].
    apply (IH _ Hrun). apply Forall_app. split; [exact Hacc |].
    constructor; [| constructor].
    unfold scored_candidate. cbn [BtcPk VotingPower].
    split; [exact Epk |]. split; [eauto |]. split; [exact Esum |].
    now apply Z.ltb_lt.
Qed.

Lemma RecordVotingPowerTable_writes_scored (env : Env) (kv kv' : KVStore) :
  tally env kv = Ok kv' ->
  exists active,
    setVotingPowers VotingPowerKey kv (uint64 (BlockHeight env)) active = Ok kv'
    /\ (active = []
        \/ exists T,
             GetCurrentBTCHeight env = Some T
             /\ Forall (scored_candidate BIP340PubKeyLen ParsePubKey env T) active).
Proof.
  unfold RecordVotingPowerTable. intros Hrun.
  destruct (GetCurrentBTCHeight env) as [T |];
    [| exists []; split; [exact Hrun | now left]].
  destruct (collectActive _ _ env T _ _ _ []) as [cands |] eqn:Ec;
    [| discriminate Hrun].
  cbn in Hrun. apply collectActive_scored in Ec; [| constructor].
  destruct (Nat.eqb (length cands) 0);
    [exists []; split; [exact Hrun | now left] |].
  eexists. split; [exact Hrun |]. right. exists T. split; [reflexivity |].
  apply Forall_forall. intros m Hm. apply FilterTopNBTCValidators_In in Hm.
  rewrite Forall_forall in Ec. now apply Ec.
Qed.

(** X12: every entry of a snapshot the tally writes at a height not tallied
    before belongs to a validator of the registry that is not slashed and
    whose key decodes, and its value is the 8-byte encoding of the positive
    sum the tally computed over the delegations of that validator at the
    BTC tip height. *)
Theorem RecordVotingPowerTable_snapshot_sound (env : Env) (kv kv' : KVStore)
  (k value : bytes) :
  HasVotingPowerTable VotingPowerKey kv (BlockHeight env) = false ->
  tally env kv = Ok kv' ->
  In (k, value)
     (prefix_Iterator (votingPowerStore VotingPowerKey (BlockHeight env)) kv') ->
  exists T v p,
    GetCurrentBTCHeight env = Some T
    /\ NewBIP340PubKey BIP340PubKeyLen ParsePubKey k = Some k
    /\ GetBTCValidator env k = Some v /\ IsSlashed v = false
    /\ sumVotingPower BIP340PubKeyLen ParsePubKey env k T
         (CheckpointFinalizationTimeout env) (CovenantQuorum (GetParams env))
         (btcDelegatorStore env k) 0 = Ok p
    /\ 0 < p
    /\ value = Uint64ToBigEndian p
    /\ BigEndianToUint64 value = Ok p.
Proof.
  intros Hfresh Hrun Hin. apply HasVotingPowerTable_false in Hfresh.
  apply RecordVotingPowerTable_writes_scored in Hrun as (active & Hset & Hactive).
  rewrite <- (votingPowerStore_uint64 _ (BlockHeight env)) in Hfresh, Hin.
  destruct (setVotingPowers_entries _ active _ _ _ _ _ Hset Hin)
    as [Hold | (m & Hm & -> & ->)].
  - rewrite Hfresh in Hold. destruct Hold.
  - destruct Hactive as [-> | (T & HT & Hscored)]; [destruct Hm |].
    rewrite Forall_forall in Hscored.
    destruct (Hscored m Hm) as (Hpk & (v & Hv & Hfree) & Hsum & Hpos).
    exists T, v, (VotingPower m). repeat split; try assumption.
    rewrite <- (app_nil_r (Uint64ToBigEndian _)), BigEndianToUint64_encode.
    f_equal. apply uint64_small.
    apply sumVotingPower_range in Hsum; lia.
Qed.

(** ** The sum of the inner loop *)

Lemma sumVotingPower_mod (env : Env) (valBTCPK : bytes) (T w Q : Z)
  (iter : list bytes) (acc p : Z) :
  sumVotingPower BIP340PubKeyLen ParsePubKey env valBTCPK T w Q iter acc = Ok p ->
  uint64 p
  = uint64 (acc + fold_right Z.add 0
                    (map (delegationScore env valBTCPK T w Q) iter)).
Proof.
  revert acc. induction iter as [| key iter IH]; intros acc Hsum;
    cbn [sumVotingPower] in Hsum.
  - injection Hsum as <-. cbn [map fold_right]. now rewrite Z.add_0_r.
  - destruct (NewBIP340PubKey _ _ key) as [delBTCPK |] eqn:Epk;
      [| discriminate Hsum].
    apply NewBIP340PubKey_Some in Epk. subst delBTCPK.
    destruct (getBTCDelegatorDelegations env valBTCPK key) as [btcDels |] eqn:Ed;
      [| discriminate Hsum].
    rewrite (IH _ Hsum). cbn [map fold_right].
    unfold delegationScore at 2. rewrite Ed.
    unfold uint64. rewrite Z.add_mod_idemp_l by lia. f_equal. ring.
Qed.

Lemma fold_add_Permutation (l l' : list Z) :
  Permutation l l' -> fold_right Z.add 0 l = fold_right Z.add 0 l'.
Proof.
  induction 1 as [| x l l' _ IH | x y l | l l' l'' _ IH1 _ IH2];
    cbn [fold_right]; lia.
Qed.

(** X13: the power the inner loop gives a validator is the sum of the
    voting powers of its delegations modulo 2^64, so it does not depend on
    the order in which the delegators are visited. *)
Theorem sumVotingPower_sum_mod (env : Env) (valBTCPK : bytes) (T w Q : Z)
  (iter : list bytes) (p : Z) :
  sumVotingPower BIP340PubKeyLen ParsePubKey env valBTCPK T w Q iter 0 = Ok p ->
  p = uint64 (fold_right Z.add 0
                (map (delegationScore env valBTCPK T w Q) iter))
  /\ forall iter' p',
       Permutation iter iter' ->
       sumVotingPower BIP340PubKeyLen ParsePubKey env valBTCPK T w Q iter' 0
       = Ok p' ->
       p' = p.
Proof.
  intros Hsum.
  assert (Hp : p = uint64 (fold_right Z.add 0
                             (map (delegationScore env valBTCPK T w Q) iter))).
  { rewrite <- (uint64_small p) by (eapply sumVotingPower_range; [| exact Hsum]; lia).
    now rewrite (sumVotingPower_mod _ _ _ _ _ _ _ _ Hsum). }
  split; [exact Hp |]. intros iter' p' Hperm Hsum'.
  rewrite <- (uint64_small p') by (eapply sumVotingPower_range; [| exact Hsum']; lia).
  rewrite (sumVotingPower_mod _ _ _ _ _ _ _ _ Hsum'), Hp. cbn [Z.add].
  f_equal. symmetry. apply fold_add_Permutation.
  now apply Permutation_map.
Qed.

(** ** Keys that do not decode *)

Lemma sumVotingPower_corrupted (env : Env) (valBTCPK : bytes) (T w Q : Z)
  (iter : list bytes) (acc : Z) (del : bytes) :
  In del iter ->
  NewBIP340PubKey BIP340PubKeyLen ParsePubKey del = None ->
  sumVotingPower BIP340PubKeyLen ParsePubKey env valBTCPK T w Q iter acc = Panic.
Proof.
  intros Hin Hbad. revert acc.
  induction iter as [| key iter IH]; intros acc; [destruct Hin |].
  cbn [sumVotingPower]. destruct Hin as [-> | Hin]; [now rewrite Hbad |].
  destruct (NewBIP340PubKey _ _ key) as [delBTCPK |]; [| reflexivity].
  destruct (getBTCDelegatorDelegations env valBTCPK delBTCPK); [| reflexivity].
  now apply IH.
Qed.

Lemma collectActive_corrupted (env : Env) (T w Q : Z)
  (iter : list (bytes * BTCValidator)) (acc : list BTCValidatorWithMeta)
  (pk : bytes) :
  In pk (map fst iter) ->
  NewBIP340PubKey BIP340PubKeyLen ParsePubKey pk = None
  \/ (exists v del,
        GetBTCValidator env pk = Some v /\ IsSlashed v = false
        /\ In del (btcDelegatorStore env pk)
        /\ NewBIP340PubKey BIP340PubKeyLen ParsePubKey del = None) ->
  collectActive BIP340PubKeyLen ParsePubKey env T w Q iter acc = Panic.
Proof.
  intros Hin Hbad. revert acc.
  induction iter as [| [key val] iter IH]; intros acc; [destruct Hin |].
  cbn [collectActive]. cbn [map fst In] in Hin.
  assert (Hrest : key <> pk -> forall acc',
            collectActive BIP340PubKeyLen ParsePubKey env T w Q iter acc' = Panic).
  { intros Hne acc'. apply IH. destruct Hin as [E | Hin]; [contradiction | exact Hin]. }
  destruct (bytes_eqb key pk) eqn:Ekey.
  - apply bytes_eqb_eq in Ekey. subst key.
    destruct Hbad as [Hbad | (v & del & Hv & Hfree & Hdel & Hbad)];
      [now rewrite Hbad |].
    destruct (NewBIP340PubKey _ _ pk) as [valBTCPK |] eqn:Epk; [| reflexivity].
    apply NewBIP340PubKey_Some in Epk. subst valBTCPK.
    rewrite Hv, Hfree.
    now rewrite (sumVotingPower_corrupted env pk T w Q _ 0 del Hdel Hbad).
  - apply bytes_eqb_neq in Ekey. specialize (Hrest Ekey).
    destruct (NewBIP340PubKey _ _ key) as [valBTCPK |]; [| reflexivity].
    destruct (GetBTCValidator env key) as [btcVal |]; [| reflexivity].
    destruct (IsSlashed btcVal); [apply Hrest |].
    destruct (sumVotingPower _ _ env valBTCPK T w Q _ 0) as [valPower |];
      [| reflexivity].
    cbn. destruct (0 <? valPower); apply Hrest.
Qed.

(** X14: a key that does not decode is never skipped: when the tip lookup
    succeeds and the registry holds a validator key that does not decode,
    or a validator that is not slashed with a delegator key that does not
    decode, the tally panics, whatever the rest of the registry holds. *)
Theorem RecordVotingPowerTable_corrupted_key_panics (env : Env) (kv : KVStore)
  (T : Z) (pk : bytes) :
  GetCurrentBTCHeight env = Some T ->
  In pk (map fst (btcValidatorStore env)) ->
  NewBIP340PubKey BIP340PubKeyLen ParsePubKey pk = None
  \/ (exists v del,
        GetBTCValidator env pk = Some v /\ IsSlashed v = false
        /\ In del (btcDelegatorStore env pk)
        /\ NewBIP340PubKey BIP340PubKeyLen ParsePubKey del = None) ->
  tally env kv = Panic.
Proof.
  intros Htip Hin Hbad. unfold RecordVotingPowerTable. rewrite Htip.
  now rewrite (collectActive_corrupted env T _ _ _ [] pk Hin Hbad).
Qed.

(** ** Running the tally again *)

(** Sorted stores with the same lookups are the same store. *)
Lemma store_sorted_ext (s1 s2 : KVStore) :
  store_sorted s1 = true -> store_sorted s2 = true ->
  (forall k, store_get s1 k = store_get s2 k) -> s1 = s2.
Proof.
  revert s2. induction s1 as [| [k1 v1] s1 IH]; intros [| [k2 v2] s2] H1 H2 Hext.
  - reflexivity.
  - specialize (Hext k2). cbn [store_get] in Hext.
    rewrite bytes_eqb_refl in Hext. discriminate Hext.
  - specialize (Hext k1). cbn [store_get] in Hext.
    rewrite bytes_eqb_refl in Hext. discriminate Hext.
  - pose proof (store_sorted_head_lt _ _ _ H1) as Hlt1.
    pose proof (store_sorted_head_lt _ _ _ H2) as Hlt2.
    assert (Hnot1 : store_get s1 k1 = None).
    { apply store_get_None. intros Hin. apply in_map_iff in Hin as [e [E Hin]].
      apply Hlt1 in Hin. rewrite E, bytes_ltb_irrefl in Hin. discriminate Hin. }
    assert (Hnot2 : store_get s2 k2 = None).
    { apply store_get_None. intros Hin. apply in_map_iff in Hin as [e [E Hin]].
      apply Hlt2 in Hin. rewrite E, bytes_ltb_irrefl in Hin. discriminate Hin. }
    assert (Ek : k1 = k2).
    { destruct (bytes_eqb k1 k2) eqn:E; [now apply bytes_eqb_eq |].
      exfalso.
      pose proof (Hext k1) as E1. pose proof (Hext k2) as E2.
      cbn [store_get] in E1, E2.
      rewrite bytes_eqb_refl in E1, E2. rewrite E in E2.
      assert (E' : bytes_eqb k2 k1 = false).
      { apply bytes_eqb_neq. apply bytes_eqb_neq in E. congruence. }
      rewrite E' in E1.
      symmetry in E1. apply store_get_In in E1. apply store_get_In in E2.
      apply Hlt2 in E1. apply Hlt1 in E2. cbn [fst] in E1, E2.
      pose proof (bytes_ltb_trans _ _ _ E1 E2) as Hcycle.
      rewrite bytes_ltb_irrefl in Hcycle. discriminate Hcycle. }
    subst k2.
    assert (Ev : v1 = v2).
    { specialize (Hext k1). cbn [store_get] in Hext.
      rewrite bytes_eqb_refl in Hext. congruence. }
    subst v2. f_equal.
    apply IH; [now apply store_sorted_tail in H1 | now apply store_sorted_tail in H2 |].
    intros k. destruct (bytes_eqb k1 k) eqn:E.
    + apply bytes_eqb_eq in E. subst k. congruence.
    + specialize (Hext k). cbn [store_get] in Hext. now rewrite E in Hext.
Qed.

Lemma setVotingPowers_get (l : list BTCValidatorWithMeta) (kv kv' : KVStore)
  (height : Z) (key : bytes) :
  setVotingPowers VotingPowerKey kv height l = Ok kv' ->
  store_get kv' key = written VotingPowerKey height l key (store_get kv key).
Proof.
  revert kv. induction l as [| m l IH]; intros kv Hrun;
    cbn [setVotingPowers written] in *.
  - now injection Hrun as <-.
  - destruct (SetVotingPower _ kv _ _ _) as [kv1 |] eqn:E; [| discriminate Hrun].
    cbn in Hrun. rewrite (IH _ Hrun). f_equal.
    apply SetVotingPower_Ok in E. subst kv1. unfold MustMarshal.
    destruct (bytes_eqb (vpStore height ++ BtcPk m) key) eqn:Ekey.
    + apply bytes_eqb_eq in Ekey. subst key. apply store_get_insert_eq.
    + apply bytes_eqb_neq in Ekey. now apply store_get_insert_ne.
Qed.

Lemma written_idem (height : Z) (l : list BTCValidatorWithMeta) (key : bytes)
  (before : option bytes) :
  written VotingPowerKey height l key (written VotingPowerKey height l key before)
  = written VotingPowerKey height l key before.
Proof.
  revert before. induction l as [| m l IH]; intros before; cbn [written];
    [reflexivity |].
  destruct (bytes_eqb (vpStore height ++ BtcPk m) key); [reflexivity | apply IH].
Qed.

(** Whether the writes return depends on the keys, not on the store. *)
Lemma setVotingPowers_returns_again (l : list BTCValidatorWithMeta)
  (kv kv' kv2 : KVStore) (height : Z) :
  setVotingPowers VotingPowerKey kv height l = Ok kv' ->
  exists kv2', setVotingPowers VotingPowerKey kv2 height l = Ok kv2'.
Proof.
  revert kv kv2. induction l as [| m l IH]; intros kv kv2 Hrun;
    cbn [setVotingPowers] in *; [eauto |].
  destruct (SetVotingPower _ kv _ _ _) as [kv1 |] eqn:E; [| discriminate Hrun].
  cbn in Hrun. revert E. unfold SetVotingPower, prefix_Set, store_Set.
  destruct (AssertValidKey (MustMarshal (BtcPk m))); [| discriminate].
  destruct (AssertValidKey (vpStore height ++ MustMarshal (BtcPk m)));
    [| discriminate].
  intros _. cbn. eapply IH. exact Hrun.
Qed.

Lemma setVotingPowers_again (l : list BTCValidatorWithMeta) (kv kv' : KVStore)
  (height : Z) :
  store_sorted kv = true ->
  setVotingPowers VotingPowerKey kv height l = Ok kv' ->
  setVotingPowers VotingPowerKey kv' height l = Ok kv'.
Proof.
  intros Hsorted Hrun.
  pose proof (setVotingPowers_sorted _ _ _ _ _ Hrun Hsorted) as Hsorted'.
  destruct (setVotingPowers_returns_again l kv kv' kv' height Hrun) as [kv2 Hagain].
  rewrite Hagain. f_equal.
  apply store_sorted_ext;
    [eapply setVotingPowers_sorted; eassumption | exact Hsorted' |].
  intros key.
  rewrite (setVotingPowers_get _ _ _ _ key Hagain),
    (setVotingPowers_get _ _ _ _ key Hrun).
  apply written_idem.
Qed.

(** X15: running the tally again at the same height on the same registry
    changes nothing: on the store a tally left, the same tally returns and
    leaves that very store. *)
Theorem RecordVotingPowerTable_again (env : Env) (kv kv' : KVStore) :
  store_sorted kv = true ->
  tally env kv = Ok kv' ->
  tally env kv' = Ok kv'.
Proof.
  unfold RecordVotingPowerTable. intros Hsorted Hrun.
  destruct (GetCurrentBTCHeight env) as [T |]; [| reflexivity].
  destruct (collectActive _ _ env T _ _ _ []) as [cands |]; [| discriminate Hrun].
  cbn in Hrun |- *.
  destruct (Nat.eqb (length cands) 0); [reflexivity |].
  now apply setVotingPowers_again with kv.
Qed.

End StoreOperations.

(** ** The signer of a BLS signature message *)

Section MsgFacts.

Variable MsgAddBlsSig : Type.
Variable AccAddress : Type.
Variable Bech32Error : Type.
Variable SignerAddress : MsgAddBlsSig -> outcome string.
Variable AccAddressFromBech32 : string -> AccAddress + Bech32Error.

(** X16: a message that passes [ValidateBasic] has exactly one signer, the
    address its signer string decodes to, and [GetSigners] returns it
    without a panic; a message that [ValidateBasic] refuses with an error
    makes [GetSigners] panic; and whenever [GetSigners] returns, it returns
    one signer and [ValidateBasic] passes. *)
Theorem ValidateBasic_GetSigners (m : MsgAddBlsSig) :
  (ValidateBasic SignerAddress AccAddressFromBech32 m = Ok None ->
     exists address signer,
       SignerAddress m = Ok address
       /\ AccAddressFromBech32 address = inl signer
       /\ GetSigners SignerAddress AccAddressFromBech32 m = Ok [signer])
  /\ (forall err,
        ValidateBasic SignerAddress AccAddressFromBech32 m = Ok (Some err) ->
        GetSigners SignerAddress AccAddressFromBech32 m = Panic)
  /\ (forall signers,
        GetSigners SignerAddress AccAddressFromBech32 m = Ok signers ->
        ValidateBasic SignerAddress AccAddressFromBech32 m = Ok None
        /\ length signers = 1%nat).
Proof.
  unfold ValidateBasic, GetSigners.
  destruct (SignerAddress m) as [address |]; cbn.
  - destruct (AccAddressFromBech32 address) as [signer | err] eqn:E.
    + split; [| split].
      * intros _. exists address, signer. repeat split. exact E.
      * discriminate.
      * intros signers [= <-]. split; reflexivity.
    + split; [discriminate |]. split; [reflexivity | discriminate].
  - split; [discriminate |]. split; discriminate.
Qed.

End MsgFacts.

(** ** Snapshots over a run of blocks *)

Section Blocks.

Variable VotingPowerKey : bytes.
Variable BIP340PubKeyLen : nat.
Variable ParsePubKey : bytes -> bool.

Local Abbreviation vpStore := (votingPowerStore VotingPowerKey).
Local Abbreviation entries kv height := (prefix_Iterator (vpStore height) kv).
Local Abbreviation cap env := (uint32 (MaxActiveBtcValidators (GetParams env))).

Lemma runTallies_snapshots_from (blocks : list Env) (kv kv' : KVStore) :
  runTallies VotingPowerKey BIP340PubKeyLen ParsePubKey blocks kv = Ok kv' ->
  NoDup (map (fun env => uint64 (BlockHeight env)) blocks) ->
  (forall env, In env blocks ->
     HasVotingPowerTable VotingPowerKey kv (BlockHeight env) = false) ->
  forall H,
    entries kv' H = entries kv H
    \/ exists env,
         In env blocks /\ uint64 H = uint64 (BlockHeight env)
         /\ snapshot_within (cap env) (entries kv' H).
Proof.
  revert kv. induction blocks as [| env blocks IH]; intros kv Hrun Hnd Hfresh H;
    cbn [runTallies] in Hrun.
  - injection Hrun as <-. now left.
  - destruct (RecordVotingPowerTable _ _ _ env kv) as [kv1 |] eqn:Estep;
      [| discriminate Hrun].
    cbn in Hrun. cbn [map] in Hnd. apply NoDup_cons_iff in Hnd as [Hnew Hnd].
    pose proof (RecordVotingPowerTable_writes _ _ _ _ _ _ Estep)
      as (active & Hset & _).
    assert (Hframe : forall h, uint64 h <> uint64 (BlockHeight env) ->
              entries kv1 h = entries kv h).
    { intros h Hne.
      apply (setVotingPowers_frame _ active kv kv1 (uint64 (BlockHeight env)) h);
        [exact Hset | now rewrite uint64_idem]. }
    assert (Hfresh1 : forall e, In e blocks ->
              HasVotingPowerTable VotingPowerKey kv1 (BlockHeight e) = false).
    { intros e He. unfold HasVotingPowerTable. rewrite Hframe.
      - apply (Hfresh e). now right.
      - intros Heq. apply Hnew. rewrite <- Heq.
        apply (in_map (fun env => uint64 (BlockHeight env))). exact He. }
    destruct (IH kv1 Hrun Hnd Hfresh1 H) as [Hsame | (e & He & Heq & Hwithin)].
    + destruct (Z.eq_dec (uint64 H) (uint64 (BlockHeight env))) as [Heq | Hne].
      * right. exists env. split; [now left |]. split; [exact Heq |].
        rewrite Hsame.
        rewrite <- (votingPowerStore_uint64 _ H), Heq, votingPowerStore_uint64.
        apply (RecordVotingPowerTable_snapshot VotingPowerKey BIP340PubKeyLen
                 ParsePubKey env kv kv1);
          [| exact Estep].
        apply HasVotingPowerTable_false. apply Hfresh. now left.
      * left. now rewrite Hsame, Hframe.
    + right. exists e. split; [now right |]. split; assumption.
Qed.

(** Over any run of blocks at pairwise different heights that starts from
    the empty store, every height that has a snapshot was tallied by one of
    the blocks, and its snapshot holds only positive powers and at most as
    many entries as the cap configured at that block. *)
Lemma runTallies_snapshots (blocks : list Env) (kv' : KVStore) :
  runTallies VotingPowerKey BIP340PubKeyLen ParsePubKey blocks [] = Ok kv' ->
  NoDup (map (fun env => uint64 (BlockHeight env)) blocks) ->
  forall H,
    HasVotingPowerTable VotingPowerKey kv' H = true ->
    exists env,
      In env blocks /\ uint64 H = uint64 (BlockHeight env)
      /\ snapshot_within (cap env) (entries kv' H).
Proof.
  intros Hrun Hnd H Hhas.
  destruct (runTallies_snapshots_from blocks [] kv' Hrun Hnd) with (H := H)
    as [Hsame | Hfound].
  - intros env _. reflexivity.
  - unfold HasVotingPowerTable in Hhas. rewrite Hsame in Hhas.
    discriminate Hhas.
  - exact Hfound.
Qed.

End Blocks.

(** ** What the tally never removes *)

Section NeverRemoves.

Variable VotingPowerKey : bytes.
Variable BIP340PubKeyLen : nat.
Variable ParsePubKey : bytes -> bool.

Lemma setVotingPowers_keeps_keys (l : list BTCValidatorWithMeta)
  (kv kv' : KVStore) (height : Z) (key : bytes) :
  setVotingPowers VotingPowerKey kv height l = Ok kv' ->
  In key (map fst kv) -> In key (map fst kv').
Proof.
  revert kv. induction l as [| m l IH]; intros kv Hrun Hin;
    cbn [setVotingPowers] in Hrun.
  - now injection Hrun as <-.
  - destruct (SetVotingPower _ kv _ _ _) as [kv1 |] eqn:E; [| discriminate Hrun].
    cbn in Hrun. apply (IH _ Hrun).
    apply SetVotingPower_Ok in E. subst kv1.
    now apply store_insert_keeps_key.
Qed.

(** X18: the tally deletes nothing: every key of the module store is still
    a key after it, so a height that had a snapshot still has one and a
    store that was activated is still activated. *)
Theorem RecordVotingPowerTable_never_removes (env : Env) (kv kv' : KVStore) :
  RecordVotingPowerTable VotingPowerKey BIP340PubKeyLen ParsePubKey env kv
  = Ok kv' ->
  (forall key, In key (map fst kv) -> In key (map fst kv'))
  /\ (forall H, HasVotingPowerTable VotingPowerKey kv H = true ->
                HasVotingPowerTable VotingPowerKey kv' H = true)
  /\ (IsBTCStakingActivated VotingPowerKey kv = true ->
      IsBTCStakingActivated VotingPowerKey kv' = true).
Proof.
  intros Hrun.
  apply RecordVotingPowerTable_writes in Hrun as (active & Hset & _).
  assert (Hkeys : forall key, In key (map fst kv) -> In key (map fst kv')).
  { intros key. now apply (setVotingPowers_keeps_keys active _ _ _ _ Hset). }
  split; [exact Hkeys |]. split.
  - intros H. now apply (setVotingPowers_keeps_snapshot _ active _ _ _ _ Hset).
  - unfold IsBTCStakingActivated.
    destruct (prefix_Iterator VotingPowerKey kv) as [| [k0 v0] rest] eqn:Hiter;
      [discriminate |].
    intros _.
    assert (Hin : In (k0, v0) (prefix_Iterator VotingPowerKey kv))
      by (rewrite Hiter; now left).
    apply In_prefix_Iterator in Hin.
    assert (Hkey : In (VotingPowerKey ++ k0) (map fst kv'))
      by (apply Hkeys, in_map_iff; now exists (VotingPowerKey ++ k0, v0)).
    apply in_map_iff in Hkey as [[k' v'] [Ek Hin']]. cbn [fst] in Ek. subst k'.
    apply In_prefix_Iterator in Hin'.
    destruct (prefix_Iterator VotingPowerKey kv'); [destruct Hin' | reflexivity].
Qed.

End NeverRemoves.

(** * The further facts on the concrete chain *)

Section FurtherRuns.

Import Scenario ScenarioMore.

Local Abbreviation VPK := Scenario.VotingPowerKey.
Local Abbreviation PKLen := Scenario.BIP340PubKeyLen.
Local Abbreviation Parse := Scenario.ParsePubKey.
Local Abbreviation run := (RecordVotingPowerTable VPK PKLen Parse).

Lemma SetVotingPower_overwrite_witness :
  SetVotingPower VPK (store_insert [] (votingPowerStore VPK 7 ++ pkA)
                        (Uint64ToBigEndian 100)) pkA 7 50
  = SetVotingPower VPK [] pkA 7 50.
Proof.
  apply (SetVotingPower_overwrite VPK [] _ pkA 7 100 50). reflexivity.
Defined.


Lemma SetVotingPower_activates_witness :
  HasVotingPowerTable VPK
    (store_insert [] (votingPowerStore VPK 7 ++ pkA) (Uint64ToBigEndian 100)) 7
  = true
  /\ IsBTCStakingActivated VPK
       (store_insert [] (votingPowerStore VPK 7 ++ pkA) (Uint64ToBigEndian 100))
     = true
  /\ GetVotingPowerTable VPK PKLen Parse
       (store_insert [] (votingPowerStore VPK 7 ++ pkA) (Uint64ToBigEndian 100)) 7
     <> Ok None.
Proof.
  apply (SetVotingPower_activates VPK PKLen Parse [] _ pkA 7 100). reflexivity.
Defined.

Lemma GetVotingPowerTable_nil_iff_witness :
  GetVotingPowerTable VPK PKLen Parse kv7 8 = Ok None.
Proof.
  apply (proj2 (GetVotingPowerTable_nil_iff VPK PKLen Parse kv7 8)). reflexivity.
Defined.

Lemma RecordVotingPowerTable_root_frame_witness :
  store_get kv8 registry_key = store_get kv7 registry_key
  /\ store_get kv8 (votingPowerStore VPK 7 ++ pkA)
     = store_get kv7 (votingPowerStore VPK 7 ++ pkA).
Proof.
  split.
  - apply (RecordVotingPowerTable_root_frame VPK PKLen Parse (env_at 8) kv7 kv8);
      reflexivity.
  - apply (RecordVotingPowerTable_root_frame VPK PKLen Parse (env_at 8) kv7 kv8);
      reflexivity.
Defined.

Lemma GetVotingPowerTable_agrees_GetVotingPower_witness :
  GetVotingPower VPK (env_at 8) kv7 pkA 7
  = Ok (default 0 (table7 !! MarshalHex pkA))
  /\ GetVotingPower VPK (env_at 8) kv7 pkC 7
     = Ok (default 0 (table7 !! MarshalHex pkC)).
Proof.
  split.
  - apply (GetVotingPowerTable_agrees_GetVotingPower VPK PKLen Parse
             (env_at 8) kv7 7 table7 pkA); reflexivity.
  - apply (GetVotingPowerTable_agrees_GetVotingPower VPK PKLen Parse
             (env_at 8) kv7 7 table7 pkC); reflexivity.
Defined.

Lemma GetVotingPowerTable_size_witness :
  size table7 = length (prefix_Iterator (votingPowerStore VPK 7) kv7).
Proof.
  apply (GetVotingPowerTable_size VPK PKLen Parse kv7 7 table7); reflexivity.
Defined.

Lemma RecordVotingPowerTable_keeps_shape_witness :
  store_sorted kv8 = true
  /\ height_keyed VPK kv8 = true
  /\ power_valued VPK kv8 = true.
Proof.
  apply (RecordVotingPowerTable_keeps_shape VPK PKLen Parse (env_at 8) kv7 kv8);
    reflexivity.
Defined.

Lemma GetVotingPower_returns_witness :
  exists p, GetVotingPower VPK (env_at 8) kv7 pkA 7 = Ok p /\ 0 <= p < 2 ^ 64.
Proof.
  apply (GetVotingPower_returns VPK (env_at 8) kv7 pkA 7). reflexivity.
Defined.

Lemma activation_height_stable_witness :
  GetBTCStakingActivatedHeight VPK kv8 = Ok (7, None).
Proof.
  apply (activation_height_stable VPK PKLen Parse (env_at 8) kv7 kv8 7);
    [reflexivity | reflexivity | reflexivity | vm_compute; discriminate
    | reflexivity].
Defined.

Lemma first_snapshot_activates_witness :
  GetBTCStakingActivatedHeight VPK kv7 = Ok (7, None).
Proof.
  apply (proj1 (first_snapshot_activates VPK PKLen Parse (env_at 7) [] kv7
                  eq_refl eq_refl eq_refl eq_refl)).
  reflexivity.
Defined.

Lemma RecordVotingPowerTable_snapshot_sound_witness :
  exists T v p,
    GetCurrentBTCHeight (env_at 7) = Some T
    /\ NewBIP340PubKey PKLen Parse pkA = Some pkA
    /\ GetBTCValidator (env_at 7) pkA = Some v /\ IsSlashed v = false
    /\ sumVotingPower PKLen Parse (env_at 7) pkA T
         (CheckpointFinalizationTimeout (env_at 7))
         (CovenantQuorum (GetParams (env_at 7)))
         (btcDelegatorStore (env_at 7) pkA) 0 = Ok p
    /\ 0 < p
    /\ Uint64ToBigEndian 100 = Uint64ToBigEndian p
    /\ BigEndianToUint64 (Uint64ToBigEndian 100) = Ok p.
Proof.
  apply (RecordVotingPowerTable_snapshot_sound VPK PKLen Parse (env_at 7) [] kv7
           pkA (Uint64ToBigEndian 100));
    [reflexivity | reflexivity | vm_compute; now left].
Defined.

Lemma sumVotingPower_sum_mod_witness :
  sumVotingPower PKLen Parse (env_overflow 7) pkA 1000 100 3 [del1; del2; del3] 0
  = Ok 5
  /\ 5 = uint64 (fold_right Z.add 0
                   (map (delegationScore (env_overflow 7) pkA 1000 100 3)
                        [del1; del2; del3]))
  /\ fold_right Z.add 0
       (map (delegationScore (env_overflow 7) pkA 1000 100 3) [del1; del2; del3])
     = 2 ^ 64 + 5
  /\ forall p',
       sumVotingPower PKLen Parse (env_overflow 7) pkA 1000 100 3
         [del3; del1; del2] 0 = Ok p' ->
       p' = 5.
Proof.
  assert (Hrun : sumVotingPower PKLen Parse (env_overflow 7) pkA 1000 100 3
                   [del1; del2; del3] 0 = Ok 5) by reflexivity.
  split; [exact Hrun |]. split; [| split].
  - apply (proj1 (sumVotingPower_sum_mod PKLen Parse (env_overflow 7) pkA
                    1000 100 3 [del1; del2; del3] 5 Hrun)).
  - reflexivity.
  - intros p'.
    apply (proj2 (sumVotingPower_sum_mod PKLen Parse (env_overflow 7) pkA
                    1000 100 3 [del1; del2; del3] 5 Hrun)
             [del3; del1; del2] p').
    apply Permutation_sym.
    apply (Permutation_cons_append [del1; del2] del3).
Defined.

Lemma RecordVotingPowerTable_corrupted_key_panics_witness :
  run (env_corrupted 9) kv8 = Panic.
Proof.
  apply (RecordVotingPowerTable_corrupted_key_panics VPK PKLen Parse
           (env_corrupted 9) kv8 1000 short_key);
    [reflexivity | simpl; right; now left | left; reflexivity].
Defined.

Lemma RecordVotingPowerTable_again_witness :
  run (env_at 7) kv7 = Ok kv7.
Proof.
  apply (RecordVotingPowerTable_again VPK PKLen Parse (env_at 7) [] kv7);
    reflexivity.
Defined.

Lemma RecordVotingPowerTable_returns_witness :
  exists kv', run (env_at 9) kv8 = Ok kv'.
Proof.
  apply (RecordVotingPowerTable_returns VPK PKLen Parse);
    [vm_compute; lia | vm_compute; discriminate |].
  intros pk Hin. simpl in Hin.
  destruct Hin as [<- | [<- | [<- | [<- | []]]]];
    (split; [vm_compute; discriminate |]);
    intros del [<- | []]; (split; [vm_compute; discriminate | discriminate]).
Defined.

Lemma RecordVotingPowerTable_never_removes_witness :
  (forall key, In key (map fst kv7) -> In key (map fst kv8))
  /\ (forall H, HasVotingPowerTable VPK kv7 H = true ->
                HasVotingPowerTable VPK kv8 H = true)
  /\ (IsBTCStakingActivated VPK kv7 = true ->
      IsBTCStakingActivated VPK kv8 = true).
Proof.
  apply (RecordVotingPowerTable_never_removes VPK PKLen Parse (env_at 8) kv7 kv8).
  reflexivity.
Defined.

Lemma ValidateBasic_GetSigners_witness :
  exists address signer,
    MsgScenario.read (Some "bbn1signer"%string) = Ok address
    /\ MsgScenario.decode address = inl signer
    /\ GetSigners MsgScenario.read MsgScenario.decode (Some "bbn1signer"%string)
       = Ok [signer].
Proof.
  apply (proj1 (ValidateBasic_GetSigners _ _ _ MsgScenario.read
                  MsgScenario.decode (Some "bbn1signer"%string))).
  reflexivity.
Defined.

End FurtherRuns.
